(** * ARGhost: the squat HMM trainer ([iOSdemo/HMM/train_squat.py])

    A shallow embedding of the numeric core of the trainer and the
    properties of its components: the feature normaliser, the Gaussian and
    transition fitters, the Viterbi decoder, the repetition segmenter and
    the export step of [main].

    Conventions.
    - Python [int] labels are [Z]; list indices and lengths are [nat]
      (every index the code computes is non-negative; the one subtraction
      that can go below zero, [n - 1] at [n = 0], is only compared with a
      non-negative cursor, where truncation at 0 gives the same answer).
    - [float] values are real numbers ([R]): arithmetic is exact.
    - A Python exception is the [None] of an [option]. *)

From Stdlib Require Import ZArith List Bool Lia Reals Lra Sorted.
From stdpp Require Import base option list.
Import ListNotations.

(** ** Loops *)

(** [while cond(s): s = body(s)], run for at most [fuel] iterations. *)
Fixpoint while_loop {St : Type} (cond : St -> bool) (body : St -> St)
    (fuel : nat) (s : St) : St :=
  match fuel with
  | O => s
  | S fuel' => if cond s then while_loop cond body fuel' (body s) else s
  end.

(** ** The numpy and Python operations the trainer uses *)

Module Numpy.
Local Open Scope R_scope.

(** [a.sum()] *)
Definition sum (a : list R) : R := foldr Rplus 0 a.

(** [a.mean()] *)
Definition mean (a : list R) : R := sum a / INR (length a).

(** [a.std()]: [sqrt(mean(abs(a - a.mean())**2))], the divisor is [len(a)]. *)
Definition std (a : list R) : R :=
  sqrt (mean (map (fun v => (v - mean a) * (v - mean a)) a)).

(** [arr[:, d]] *)
Definition column (arr : list (list R)) (d : nat) : list R :=
  map (fun row => nth d row 0) arr.

(** [np.argmax]: the index of the first occurrence of the maximum; the
    running best is replaced only by a strictly larger entry. An empty
    array raises. *)
Fixpoint argmax_from (best_i : nat) (best : R) (i : nat) (a : list R) : nat :=
  match a with
  | [] => best_i
  | v :: a' =>
      if Rlt_dec best v then argmax_from i v (S i) a'
      else argmax_from best_i best (S i) a'
  end.

Definition argmax (a : list R) : option nat :=
  match a with
  | [] => None
  | v :: a' => Some (argmax_from 0 v 1 a')
  end.

(** Index [i] into a sequence of length [len]: a negative index counts
    from the end, an index out of range raises IndexError. *)
Definition py_index (len : nat) (i : Z) : option nat :=
  if ((0 <=? i) && (i <? Z.of_nat len))%Z then Some (Z.to_nat i)
  else if ((- Z.of_nat len <=? i) && (i <? 0))%Z then Some (Z.to_nat (Z.of_nat len + i))
  else None.

(** [a[i] = v] on a one-dimensional array. *)
Definition set_item (a : list R) (i : Z) (v : R) : option (list R) :=
  k ← py_index (length a) i;
  Some (<[k := v]> a).

(** [counts[a, b] += v] on a two-dimensional array. *)
Definition add_item2 (counts : list (list R)) (a b : Z) (v : R) : option (list (list R)) :=
  r ← py_index (length counts) a;
  row ← counts !! r;
  c ← py_index (length row) b;
  old ← row !! c;
  Some (<[r := <[c := old + v]> row]> counts).

(** [a[start:stop]] for non-negative bounds: the bounds are clipped to
    the length. *)
Definition slice {A : Type} (a : list A) (start stop : nat) : list A :=
  take (stop - start) (drop start a).

End Numpy.

Definition NUM_FEATURES : nat := 16.
Definition NUM_STATES : nat := 2.

(** ** Geometry and feature extraction *)

Module Features.
Local Open Scope R_scope.

(** One mediapipe landmark. *)
Record landmark : Type := { x : R; y : R; visibility : R }.

Inductive PoseLandmark : Set :=
  | LEFT_SHOULDER | RIGHT_SHOULDER | LEFT_HIP | RIGHT_HIP
  | LEFT_KNEE | RIGHT_KNEE | LEFT_ANKLE | RIGHT_ANKLE.

Definition JOINT_ORDER : list PoseLandmark :=
  [LEFT_SHOULDER; RIGHT_SHOULDER; LEFT_HIP; RIGHT_HIP;
   LEFT_KNEE; RIGHT_KNEE; LEFT_ANKLE; RIGHT_ANKLE].

(** [result.pose_landmarks.landmark], indexed by landmark. *)
Definition landmarks : Type := PoseLandmark -> landmark.

Definition point : Type := (R * R)%type.

(** [math.hypot] and [np.linalg.norm] of a 2-vector. *)
Definition hypot (a b : R) : R := sqrt (a * a + b * b).

(** [angle(a, b, c)]: the angle at [b], in degrees. *)
Definition angle (a b c : point) : R :=
  let v1 := (fst a - fst b, snd a - snd b) in
  let v2 := (fst c - fst b, snd c - snd b) in
  let norm (v : point) := hypot (fst v) (snd v) in
  if Rlt_dec (norm v1) 1e-6 then 180
  else if Rlt_dec (norm v2) 1e-6 then 180
  else
    let v1 := (fst v1 / norm v1, snd v1 / norm v1) in
    let v2 := (fst v2 / norm v2, snd v2 / norm v2) in
    let d := fst v1 * fst v2 + snd v1 * snd v2 in
    let dot := if Rlt_dec d (-1) then -1 else if Rlt_dec 1 d then 1 else d in
    acos dot * (180 / PI).

(** The inner [get] of [extract_feature_vector]. *)
Definition get_visible (lms : landmarks) (lm : PoseLandmark) : option point :=
  let p := lms lm in
  if Rlt_dec (visibility p) 0.3 then None else Some (x p, y p).

Definition dist (a b : point) : R := hypot (fst a - fst b) (snd a - snd b).

(** [extract_feature_vector]. [pts] is the dictionary filled by the loop
    over [JOINT_ORDER], held as the list of its values in that order. *)
Definition extract_feature_vector (lms : landmarks) : option (list R) :=
  pts ← mapM (get_visible lms) JOINT_ORDER;
  match pts with
  | [ls; rs; lh; rh; lk; rk; la; ra] =>
      let hip_center := ((fst lh + fst rh) / 2, (snd lh + snd rh) / 2) in
      let shoulder_center := ((fst ls + fst rs) / 2, (snd ls + snd rs) / 2) in
      let scale := dist hip_center shoulder_center in
      scale ← (if Rlt_dec scale 1e-3 then
                 let scale := dist lh rh in
                 if Rlt_dec scale 1e-3 then None else Some scale
               else Some scale);
      let norm (p : point) :=
        ((fst p - fst hip_center) / scale, (snd p - snd hip_center) / scale) in
      let ls_n := norm ls in
      let rs_n := norm rs in
      let lh_n := norm lh in
      let rh_n := norm rh in
      let lk_n := norm lk in
      let rk_n := norm rk in
      let la_n := norm la in
      let ra_n := norm ra in
      Some [fst ls_n; snd ls_n; fst rs_n; snd rs_n;
            fst lh_n; snd lh_n; fst rh_n; snd rh_n;
            fst lk_n; snd lk_n; fst rk_n; snd rk_n;
            fst la_n; snd la_n; fst ra_n; snd ra_n]
  | _ => None
  end.

(** [knee_state], with its default thresholds as arguments. *)
Definition knee_state_with (lms : landmarks) (up_threshold down_threshold : R) : Z :=
  let get (lm : PoseLandmark) : point := (x (lms lm), y (lms lm)) in
  let hip_l := get LEFT_HIP in
  let knee_l := get LEFT_KNEE in
  let ankle_l := get LEFT_ANKLE in
  let hip_r := get RIGHT_HIP in
  let knee_r := get RIGHT_KNEE in
  let ankle_r := get RIGHT_ANKLE in
  let ang_l := angle hip_l knee_l ankle_l in
  let ang_r := angle hip_r knee_r ankle_r in
  let ang := 0.5 * (ang_l + ang_r) in
  if Rge_dec ang up_threshold then 0%Z
  else if Rle_dec ang down_threshold then 1%Z
  else
    let mid := 0.5 * (up_threshold + down_threshold) in
    if Rge_dec ang mid then 0%Z else 1%Z.

Definition knee_state (lms : landmarks) : Z := knee_state_with lms 150 120.

End Features.

(** ** HMM helpers *)

Module HMM.
Local Open Scope R_scope.

(** One iteration of the loop of [fit_gaussians]: [arr] is the [N_s x D]
    array of the vectors of one state, all of one length [D]. On an empty
    bucket [sd] is a scalar and the masked assignment raises. *)
Definition fit_gaussian (arr : list (list R)) : option (list R * list R) :=
  match arr with
  | [] => None
  | row :: _ =>
      let dims := seq 0 (length row) in
      let mu := map (fun d => Numpy.mean (Numpy.column arr d)) dims in
      let sd := map (fun d => Numpy.std (Numpy.column arr d)) dims in
      let sd := map (fun v => if Rlt_dec v 1e-6 then 1e-6 else v) sd in
      Some (mu, sd)
  end.

(** [fit_gaussians]: the pair [(means, stds)], each [S x D]. *)
Definition fit_gaussians (features_per_state : list (list (list R)))
    : option (list (list R) * list (list R)) :=
  fitted ← mapM (fun s => arr ← features_per_state !! s; fit_gaussian arr)
                (seq 0 NUM_STATES);
  Some (map fst fitted, map snd fitted).

(** [counts / counts.sum(axis=1, keepdims=True)] *)
Definition normalize_rows (counts : list (list R)) : list (list R) :=
  map (fun row => map (fun v => v / Numpy.sum row) row) counts.

(** [fit_transitions] *)
Definition fit_transitions (state_seq : list Z) : option (list (list R)) :=
  let counts := replicate NUM_STATES (replicate NUM_STATES 1) in
  counts ← foldl (fun counts i =>
                    counts ← counts;
                    a ← state_seq !! i;
                    b ← state_seq !! (i + 1)%nat;
                    Numpy.add_item2 counts a b 1)
                 (Some counts) (seq 0 (length state_seq - 1));
  Some (normalize_rows counts).

(** [fit_prior] *)
Definition fit_prior (first_state : Z) : option (list R) :=
  let prior := replicate NUM_STATES 1e-6 in
  prior ← Numpy.set_item prior first_state 1;
  Some (map (fun v => v / Numpy.sum prior) prior).

(** The column [log_emit[:, s]] of [viterbi_loglik] for one state. *)
Definition log_emit_column (sequence : list (list R)) (mu sd : list R) : list R :=
  let var2 := map (fun v => 2 * v * v) sd in
  let log_norm := map (fun v => -0.5 * ln (2 * PI * v * v)) sd in
  map (fun row =>
         let diff := zip_with Rminus row mu in
         Numpy.sum log_norm
         - Numpy.sum (zip_with Rdiv (zip_with Rmult diff diff) var2))
      sequence.

(** The backward loop of [viterbi_loglik] over [reversed(range(T))], on
    the rows [back[T-1], ..., back[1]]; the result is
    [path[T-1], ..., path[0]]. *)
Fixpoint backtrack (back_rev : list (list nat)) (s : nat) : list nat :=
  match back_rev with
  | [] => [s]
  | row :: back_rev' => s :: backtrack back_rev' (nth s row 0%nat)
  end.

(** The body of [for t in range(1, T)] of [viterbi_loglik]: from
    [dp[t-1, :]] and the rows of [back] filled so far to [dp[t, :]] and
    the rows with [back[t, :]] added. [emit t s] is [log_emit[t, s]]. *)
Definition viterbi_step (S : nat) (log_trans : list (list R)) (emit : nat -> nat -> R)
    (dp_back : list R * list (list nat)) (t : nat)
    : option (list R * list (list nat)) :=
  cells ← mapM (fun s =>
                  let candidates :=
                    zip_with Rplus (fst dp_back) (Numpy.column log_trans s) in
                  best_prev ← Numpy.argmax candidates;
                  Some (nth best_prev candidates 0 + emit t s, best_prev))
               (seq 0 S);
  Some (map fst cells, snd dp_back ++ [map snd cells]).

(** [viterbi_loglik]. [log_emit] is held by columns, one per state;
    [back] holds the rows [1 .. T-1] (row 0 is never read). An empty
    sequence raises, as does [argmax] when there is no state. *)
Definition viterbi_loglik (sequence : list (list R)) (log_prior : list R)
    (log_trans : list (list R)) (means stds : list (list R))
    : option (list nat * R) :=
  let T := length sequence in
  let S := length log_prior in
  if (T =? 0)%nat then None else
  log_emit ← mapM (fun s => mu ← means !! s; sd ← stds !! s;
                            Some (log_emit_column sequence mu sd))
                  (seq 0 S);
  let emit (t s : nat) := nth t (nth s log_emit []) 0 in
  let dp0 := zip_with Rplus log_prior (map (emit 0%nat) (seq 0 S)) in
  dp_back ← foldl (fun dp_back t =>
                     dp_back ← dp_back; viterbi_step S log_trans emit dp_back t)
                  (Some (dp0, [])) (seq 1 (T - 1));
  last_state ← Numpy.argmax (fst dp_back);
  let best_log := nth last_state (fst dp_back) 0 in
  Some (rev (backtrack (rev (snd dp_back)) last_state), best_log).

End HMM.

(** ** Rep Segmenter ([segment_reps]) *)

Module Segmenter.

(** [frame_states[i]]; every use is guarded by [i < n]. *)
Definition item (frame_states : list Z) (i : nat) : Z := nth i frame_states 0%Z.

(** [while i < n and frame_states[i] != 0: i += 1] *)
Definition find_up (frame_states : list Z) (i : nat) : nat :=
  let n := length frame_states in
  while_loop (fun i => (i <? n) && negb (item frame_states i =? 0)%Z) S n i.

(** [while i < n and frame_states[i] == 0: i += 1] *)
Definition find_down (frame_states : list Z) (i : nat) : nat :=
  let n := length frame_states in
  while_loop (fun i => (i <? n) && (item frame_states i =? 0)%Z) S n i.

(** [saw_down = False]
    [while i < n and frame_states[i] == 1: saw_down = True; i += 1] *)
Definition in_down (frame_states : list Z) (i : nat) : bool * nat :=
  let n := length frame_states in
  while_loop (fun st : bool * nat => (snd st <? n) && (item frame_states (snd st) =? 1)%Z)
             (fun st => (true, S (snd st))) n (false, i).

(** The way the outer [while] is left. *)
Inductive loop_exit : Set :=
  | CondFalse     (* [i < n - 1] is false *)
  | BreakNoUp     (* [if i >= n - 1: break] *)
  | BreakNoDown   (* [if i >= n: break] after the UP run *)
  | BreakNotSawDown (* [if not saw_down: break] *)
  | BreakNoEnd    (* [if i >= n: break] after the DOWN run *)
  | OutOfFuel.

(** The outer [while i < n - 1] loop, from cursor [i] with the
    repetitions [reps] found so far. *)
Fixpoint segment_loop (frame_states : list Z) (fuel : nat) (i : nat)
    (reps : list (nat * nat)) : list (nat * nat) * loop_exit :=
  let n := length frame_states in
  match fuel with
  | O => (reps, OutOfFuel)
  | S fuel' =>
      if negb (i <? n - 1) then (reps, CondFalse) else
      let i := find_up frame_states i in
      if n - 1 <=? i then (reps, BreakNoUp) else
      let start := i in
      let i := find_down frame_states i in
      if n <=? i then (reps, BreakNoDown) else
      let '(saw_down, i) := in_down frame_states i in
      if negb saw_down then (reps, BreakNotSawDown) else
      if n <=? i then (reps, BreakNoEnd) else
      let end_ := i in
      segment_loop frame_states fuel' i (reps ++ [(start, end_)])
  end.

Definition segment_run (frame_states : list Z) : list (nat * nat) * loop_exit :=
  segment_loop frame_states (S (length frame_states)) 0 [].

Definition segment_reps (frame_states : list Z) : list (nat * nat) :=
  fst (segment_run frame_states).

End Segmenter.


(** ** Main pipeline *)

Module Pipeline.
Import Features HMM Segmenter.
Local Open Scope R_scope.

Record Emission : Type := { means : list R; stds : list R }.

(** The dictionary [model] that [main] writes out. *)
Record ModelParameters : Type := {
  numStates : nat;
  numFeatures : nat;
  logPrior : list R;
  logTrans : list (list R);
  emissions : list Emission;
  meanLogLikelihood : R;
  stdLogLikelihood : R;
  thresholdSigma : R
}.

(** The lines [main] prints. *)
Inductive message : Type :=
  | CannotOpenVideo                 (* "Error: cannot open {VIDEO_PATH}" *)
  | NoUsableFrames                  (* "No usable frames extracted." *)
  | StateHasNoFrames (s : nat)      (* "State {s} has no frames; adjust thresholds." *)
  | NoRepsDetected                  (* "No reps detected; treating whole clip as one rep." *)
  | SavedModel                      (* "Saved HMM model to {OUTPUT_JSON}" *)
  | RepsDetected (count : nat)      (* "Reps detected: {len(reps)}" *)
  | MeanStd (mean_ll std_ll : R).   (* "Mean log-likelihood: ..., std: ..." *)

(** What a run of [main] does, in order: the lines printed, the helper
    calls reached, the file written. *)
Inductive event : Type :=
  | Printed (msg : message)
  | CallFitGaussians
  | CallFitTransitions
  | CallFitPrior
  | CallSegmentReps
  | CallViterbi (sequence : list (list R))
  | JsonDump (model : ModelParameters).

(** How a run ends before its last statement: [return], or an exception. *)
Inductive stop : Set := Returned | Raised.

(** A computation of [main]: the events so far, and either the way it
    stopped or its value. *)
Record M (A : Type) : Type := Run { trace : list event; result : stop + A }.
Arguments Run {A} _ _.
Arguments trace {A} _.
Arguments result {A} _.

#[global] Instance M_ret : MRet M := fun A a => Run [] (inr a).
#[global] Instance M_bind : MBind M := fun A B f m =>
  match result m with
  | inl s => Run (trace m) (inl s)
  | inr a => Run (trace m ++ trace (f a)) (result (f a))
  end.

Definition tell (e : event) : M unit := Run [e] (inr tt).
Definition print (msg : message) : M unit := tell (Printed msg).
Definition return_ {A : Type} : M A := Run [] (inl Returned).
(** A helper that may raise. *)
Definition call {A : Type} (r : option A) : M A :=
  match r with
  | Some a => Run [] (inr a)
  | None => Run [] (inl Raised)
  end.

(** [for a in l: body(a)] *)
Fixpoint for_each {A : Type} (l : list A) (body : A -> M unit) : M unit :=
  match l with
  | [] => mret tt
  | a :: l' => body a ;; for_each l' body
  end.

(** [for x, s in zip(all_features, all_states):
       features_per_state[s].append(x.tolist())] *)
Definition group_by_state (all_features : list (list R)) (all_states : list Z)
    : option (list (list (list R))) :=
  foldl (fun features_per_state xs =>
           features_per_state ← features_per_state;
           k ← Numpy.py_index (length features_per_state) (snd xs);
           bucket ← features_per_state !! k;
           Some (<[k := bucket ++ [fst xs]]> features_per_state))
        (Some (replicate NUM_STATES [])) (zip all_features all_states).

(** The block of [main] that finds the repetitions:
    [reps = segment_reps(all_states.tolist())] and the fallback to the
    whole clip. *)
Definition detect_reps (all_states : list Z) : M (list (nat * nat)) :=
  tell CallSegmentReps ;;
  let reps := segment_reps all_states in
  if (length reps =? 0)%nat
  then print NoRepsDetected ;; mret [(0, length all_states - 1)%nat]
  else mret reps.

(** The loop [for (start, end) in reps] of [main]: the decoder runs on
    [all_features[start:end+1, :]] and its log-likelihood is appended to
    [rep_loglikes]. *)
Definition score_reps (all_features : list (list R)) (reps : list (nat * nat))
    (log_prior : list R) (log_trans : list (list R)) (means stds : list (list R))
    : M (list R) :=
  mapM (fun rep : nat * nat =>
          let seq := Numpy.slice all_features (fst rep) (snd rep + 1) in
          tell (CallViterbi seq) ;;
          decoded ← call (viterbi_loglik seq log_prior log_trans means stds);
          mret (snd decoded))
       reps.

(** The dictionary [model] of [main], with [mean_ll] and [std_ll]. *)
Definition build_model (log_prior : list R) (log_trans : list (list R))
    (means stds : list (list R)) (rep_loglikes : list R) : ModelParameters :=
  let mean_ll := Numpy.mean rep_loglikes in
  let std_ll := if (1 <? length rep_loglikes)%nat then Numpy.std rep_loglikes else 1 in
  let threshold_sigma := 2 in
  {| numStates := NUM_STATES;
     numFeatures := NUM_FEATURES;
     logPrior := log_prior;
     logTrans := log_trans;
     emissions := map (fun s => {| means := nth s means []; stds := nth s stds [] |})
                      (seq 0 NUM_STATES);
     meanLogLikelihood := mean_ll;
     stdLogLikelihood := std_ll;
     thresholdSigma := threshold_sigma |}.

(** [main] from the end of the forward pass: [all_features] and
    [all_states] are the two lists the frame loop has filled. *)
Definition main_after_forward_pass (all_features : list (list R))
    (all_states : list Z) : M unit :=
  (if (length all_features =? 0)%nat
   then print NoUsableFrames ;; return_
   else mret tt) ;;
  features_per_state ← call (group_by_state all_features all_states);
  for_each (seq 0 NUM_STATES) (fun s =>
    bucket ← call (features_per_state !! s);
    if (length bucket =? 0)%nat
    then print (StateHasNoFrames s) ;; return_
    else mret tt) ;;
  tell CallFitGaussians ;;
  gaussians ← call (fit_gaussians features_per_state);
  tell CallFitTransitions ;;
  trans ← call (fit_transitions all_states);
  first_state ← call (all_states !! 0%nat);
  tell CallFitPrior ;;
  prior ← call (fit_prior first_state);
  let log_prior := map ln prior in
  let log_trans := map (map ln) trans in
  reps ← detect_reps all_states;
  rep_loglikes ← score_reps all_features reps log_prior log_trans
                   (fst gaussians) (snd gaussians);
  let model := build_model log_prior log_trans (fst gaussians) (snd gaussians)
                 rep_loglikes in
  tell (JsonDump model) ;;
  print SavedModel ;;
  print (RepsDetected (length reps)) ;;
  print (MeanStd (meanLogLikelihood model) (stdLogLikelihood model)).

(** The frame loop of [main]: a frame is [None] when the pose estimator
    found no landmarks. *)
Definition forward_pass (frames : list (option landmarks)) : list (list R) * list Z :=
  foldl (fun acc frame =>
           match frame with
           | None => acc
           | Some lms =>
               match extract_feature_vector lms with
               | None => acc
               | Some feat => (fst acc ++ [feat], snd acc ++ [knee_state lms])
               end
           end)
        ([], []) frames.

(** [main]: [opened] is [cap.isOpened()], [frames] what the pose
    estimator returns for the frames of the video. *)
Definition main (opened : bool) (frames : list (option landmarks)) : M unit :=
  (if negb opened then print CannotOpenVideo ;; return_ else mret tt) ;;
  let corpus := forward_pass frames in
  main_after_forward_pass (fst corpus) (snd corpus).

End Pipeline.

(** ** Vocabulary of the properties *)

(** Repetitions in the order of the sequence, each ending before the
    next begins. *)
Definition in_order (reps : list (nat * nat)) : Prop :=
  Sorted (fun r r' : nat * nat => snd r <= fst r') reps.

(** What the outer loop of [segment_reps] keeps true of the repetitions
    found so far in a sequence of [n] labels, with the cursor at [hi]. *)
Definition reps_upto (n hi : nat) (reps : list (nat * nat)) : Prop :=
  Forall (fun r => fst r < snd r /\ snd r <= hi /\ snd r < n) reps /\ in_order reps.

(** A 2 x 2 array of counts, none below the Laplace 1. *)
Definition smoothed_counts (counts : list (list R)) : Prop :=
  exists a b c d : R,
    counts = [[a; b]; [c; d]] /\ (1 <= a /\ 1 <= b /\ 1 <= c /\ 1 <= d)%R.

(** The uniform scaling by [k] followed by the translation by
    [(tx, ty)] of every joint position; visibilities are kept. *)
Definition transform (k tx ty : R) (lms : Features.landmarks) : Features.landmarks :=
  fun lm =>
    {| Features.x := k * Features.x (lms lm) + tx;
       Features.y := k * Features.y (lms lm) + ty;
       Features.visibility := Features.visibility (lms lm) |}%R.

(** The two distances [extract_feature_vector] may take as [scale]: from
    the hip centre to the shoulder centre, and between the hips. *)
Definition torso_length (lms : Features.landmarks) : R :=
  let xy lm := (Features.x (lms lm), Features.y (lms lm)) in
  let lh := xy Features.LEFT_HIP in
  let rh := xy Features.RIGHT_HIP in
  let ls := xy Features.LEFT_SHOULDER in
  let rs := xy Features.RIGHT_SHOULDER in
  Features.dist ((fst lh + fst rh) / 2, (snd lh + snd rh) / 2)%R
                ((fst ls + fst rs) / 2, (snd ls + snd rs) / 2)%R.

Definition hip_width (lms : Features.landmarks) : R :=
  let xy lm := (Features.x (lms lm), Features.y (lms lm)) in
  Features.dist (xy Features.LEFT_HIP) (xy Features.RIGHT_HIP).

(** Which of them the 1e-3 guards of [extract_feature_vector] select. *)
Inductive scale_source : Set := ShoulderHip | HipWidth | NoScale.

Definition scale_source_of (lms : Features.landmarks) : scale_source :=
  if Rlt_dec (torso_length lms) 1e-3 then
    if Rlt_dec (hip_width lms) 1e-3 then NoScale else HipWidth
  else ShoulderHip.

(** A pose with every joint visible, both hips at the origin and both
    shoulders 0.002 above them. *)
Definition small_pose : Features.landmarks :=
  fun lm =>
    match lm with
    | Features.LEFT_SHOULDER | Features.RIGHT_SHOULDER =>
        {| Features.x := 0; Features.y := 0.002; Features.visibility := 1 |}
    | _ => {| Features.x := 0; Features.y := 0; Features.visibility := 1 |}
    end%R.

(** The joint positions in [JOINT_ORDER], each taken relative to the hip
    centre and divided by [scale]. *)
Definition normalized (lms : Features.landmarks) (scale : R) : list R :=
  let hip_x := ((Features.x (lms Features.LEFT_HIP) + Features.x (lms Features.RIGHT_HIP)) / 2)%R in
  let hip_y := ((Features.y (lms Features.LEFT_HIP) + Features.y (lms Features.RIGHT_HIP)) / 2)%R in
  flat_map (fun lm => [(Features.x (lms lm) - hip_x) / scale;
                       (Features.y (lms lm) - hip_y) / scale]%R)
           Features.JOINT_ORDER.

(** The population standard deviation of a list of numbers: the square
    root of the mean squared deviation from the mean, with divisor the
    number of values. *)
Definition population_std (values : list R) : R :=
  let N := INR (length values) in
  let mu := (foldr Rplus 0 values / N)%R in
  sqrt (foldr Rplus 0 (map (fun v => (v - mu) ^ 2) values) / N)%R.

(** The corpus after the forward pass, as [main] needs it to reach the
    fitting step: one 0/1 label for each feature vector, and a non-empty
    bucket of vectors for each label. *)
Definition usable_corpus (all_features : list (list R)) (all_states : list Z)
    (bucket0 bucket1 : list (list R)) : Prop :=
  length all_features = length all_states
  /\ Forall (fun v => v = 0%Z \/ v = 1%Z) all_states
  /\ Pipeline.group_by_state all_features all_states = Some [bucket0; bucket1]
  /\ bucket0 <> [] /\ bucket1 <> [].

(** One UP->DOWN->UP cycle in the labels: a run of 0 from [start] up to
    some [m], a run of 1 from [m] up to [end], and at [end], inside the
    sequence, a label that is not 1. *)
Definition cycle_shape (frame_states : list Z) (rep : nat * nat) : Prop :=
  exists m : nat,
    fst rep < m /\ m < snd rep /\ snd rep < length frame_states
    /\ (forall j, fst rep <= j < m -> Segmenter.item frame_states j = 0%Z)
    /\ (forall j, m <= j < snd rep -> Segmenter.item frame_states j = 1%Z)
    /\ Segmenter.item frame_states (snd rep) <> 1%Z.

(** The number of positions [i] of a label sequence with label [a] at
    [i] and label [b] at [i + 1]. *)
Fixpoint count_transitions (a b : Z) (state_seq : list Z) : nat :=
  match state_seq with
  | [] => 0
  | x :: rest =>
      match rest with
      | [] => 0
      | y :: _ =>
          (if ((x =? a) && (y =? b))%Z then 1 else 0) + count_transitions a b rest
      end
  end.

(** The average of the two knee angles that [knee_state] thresholds. *)
Definition knee_angle (lms : Features.landmarks) : R :=
  let xy lm := (Features.x (lms lm), Features.y (lms lm)) in
  (0.5 * (Features.angle (xy Features.LEFT_HIP) (xy Features.LEFT_KNEE)
                         (xy Features.LEFT_ANKLE)
          + Features.angle (xy Features.RIGHT_HIP) (xy Features.RIGHT_KNEE)
                           (xy Features.RIGHT_ANKLE)))%R.

(** The feature vectors of the corpus whose label is [s], in the order
    of the frames. *)
Definition labelled (s : Z) (pairs : list (list R * Z)) : list (list R) :=
  flat_map (fun xs => if (snd xs =? s)%Z then [fst xs] else []) pairs.

(** The models a run writes, in order. *)
Definition dumped (events : list Pipeline.event) : list Pipeline.ModelParameters :=
  flat_map (fun e => match e with Pipeline.JsonDump model => [model] | _ => [] end)
           events.

(** [log_emit[t, s]] of [viterbi_loglik]: the log-density of frame [t]
    under the Gaussian of state [s]. *)
Definition log_emit_at (sequence : list (list R)) (means stds : list (list R))
    (t s : nat) : R :=
  nth t (HMM.log_emit_column sequence (nth s means []) (nth s stds [])) 0%R.

(** The joint log-likelihood of the states [rest] at the times from [t]
    on, after state [prev]: for each, the log-transition into it plus
    its log-emission. *)
Fixpoint walk_score (log_trans : list (list R)) (emit : nat -> nat -> R)
    (t prev : nat) (rest : list nat) : R :=
  match rest with
  | [] => 0
  | s :: rest' =>
      nth s (nth prev log_trans []) 0 + emit t s
      + walk_score log_trans emit (S t) s rest'
  end%R.

(** The joint log-likelihood of a state path and the observations: the
    log-prior of its first state, the log-transitions along it and the
    log-emission of every frame. *)
Definition path_score (log_prior : list R) (log_trans : list (list R))
    (emit : nat -> nat -> R) (path : list nat) : R :=
  match path with
  | [] => 0
  | s0 :: rest =>
      nth s0 log_prior 0 + emit 0%nat s0 + walk_score log_trans emit 1%nat s0 rest
  end%R.

(** The path that the backward loop of [viterbi_loglik] reads off the
    rows of [back], ending in state [s]. *)
Definition route (back : list (list nat)) (s : nat) : list nat :=
  rev (HMM.backtrack (rev back) s).

(** What the recursion of [viterbi_loglik] keeps true of [dp[t, :]] and
    of the rows of [back] up to [t]: [dp[t, s]] is the score of the path
    read off [back] that ends in [s], and (when [log_trans] has a row for
    every state) no path of that length ending in [s] scores more. *)
Definition viterbi_table (log_prior : list R) (log_trans : list (list R))
    (emit : nat -> nat -> R) (dp : list R) (back : list (list nat)) : Prop :=
  length dp = length log_prior
  /\ Forall (fun row => Forall (fun s => s < length log_prior) row) back
  /\ forall s : nat,
       s < length log_prior ->
       nth s dp 0%R = path_score log_prior log_trans emit (route back s)
       /\ (length log_prior <= length log_trans ->
           forall q : list nat,
             length q = length back ->
             Forall (fun s' => s' < length log_prior) q ->
             (path_score log_prior log_trans emit (q ++ [s]) <= nth s dp 0)%R).

(** * Properties *)

(** ** Cursor loops *)

(** Once a loop has stopped because its condition fails, more fuel gives
    the same state. *)
Lemma while_loop_stable {St : Type} (cond : St -> bool) (body : St -> St)
    (fuel fuel' : nat) (s : St) :
  cond (while_loop cond body fuel s) = false -> fuel <= fuel' ->
  while_loop cond body fuel' s = while_loop cond body fuel s.
Proof.
  revert fuel' s. induction fuel as [|fuel IH]; intros fuel' s Hout Hle.
  - simpl in *. destruct fuel'; simpl; [reflexivity | now rewrite Hout].
  - destruct fuel' as [|fuel']; [lia|]. simpl in *.
    destruct (cond s); [apply IH; [exact Hout | lia] | reflexivity].
Qed.

Section CursorLoops.
Variable c : nat -> bool.
Variable n : nat.
Hypothesis c_in_range : forall i, c i = true -> i < n.

(** A cursor loop with fuel [n - i] or more never moves back, stops
    where its condition fails, and moves on when the condition holds at
    the start. *)
Lemma while_cursor (fuel i : nat) :
  n - i <= fuel ->
  i <= while_loop c S fuel i
  /\ c (while_loop c S fuel i) = false
  /\ (c i = true -> i < while_loop c S fuel i).
Proof using c_in_range.
  revert i. induction fuel as [|fuel IH]; intros i Hfuel; simpl.
  - destruct (c i) eqn:Hc.
    + apply c_in_range in Hc. lia.
    + repeat split; [lia | congruence].
  - destruct (c i) eqn:Hc.
    + destruct (IH (S i)) as (Hle & Hout & _); [lia|].
      repeat split; [lia | assumption | lia].
    + repeat split; [lia | assumption | congruence].
Qed.

(** The same loop carrying a flag that its body sets. *)
Lemma while_flagged (fuel : nat) (b : bool) (i : nat) :
  while_loop (fun st : bool * nat => c (snd st)) (fun st => (true, S (snd st)))
             fuel (b, i)
  = (b || (negb (fuel =? 0) && c i), while_loop c S fuel i).
Proof.
  revert b i. induction fuel as [|fuel IH]; intros b i; simpl.
  - now rewrite orb_false_r.
  - destruct (c i) eqn:Hc; simpl.
    + rewrite IH. simpl. now rewrite orb_true_r.
    + now rewrite orb_false_r.
Qed.

(** With fuel [n - i] or more the cursor loop has its final value. *)
Lemma while_cursor_fuel (fuel fuel' i : nat) :
  n - i <= fuel -> fuel <= fuel' ->
  while_loop c S fuel' i = while_loop c S fuel i.
Proof using c_in_range.
  intros Hfuel Hle. apply while_loop_stable; [|exact Hle].
  now destruct (while_cursor fuel i Hfuel) as (_ & Hout & _).
Qed.
End CursorLoops.

(** ** Rep Segmenter *)

Section SegmenterFacts.
Import Segmenter.
Variable frame_states : list Z.
Local Abbreviation n := (length frame_states).

Lemma find_up_spec (i : nat) :
  i <= find_up frame_states i
  /\ (find_up frame_states i < n -> item frame_states (find_up frame_states i) = 0%Z).
Proof.
  unfold find_up.
  set (c := fun i => (i <? length frame_states) && negb (item frame_states i =? 0)%Z).
  destruct (while_cursor c n) with (fuel := n) (i := i) as (Hle & Hout & _).
  - intros j Hj. unfold c in Hj. apply andb_true_iff in Hj as [Hj _].
    now apply Nat.ltb_lt in Hj.
  - lia.
  - split; [exact Hle|]. intros Hlt. subst c. cbv beta in Hout.
    apply Nat.ltb_lt in Hlt. rewrite Hlt in Hout. simpl in Hout.
    apply negb_false_iff, Z.eqb_eq in Hout. exact Hout.
Qed.

Lemma find_down_spec (i : nat) :
  i <= find_down frame_states i
  /\ (find_down frame_states i < n -> item frame_states (find_down frame_states i) <> 0%Z)
  /\ (i < n -> item frame_states i = 0%Z -> i < find_down frame_states i).
Proof.
  unfold find_down.
  set (c := fun i => (i <? length frame_states) && (item frame_states i =? 0)%Z).
  destruct (while_cursor c n) with (fuel := n) (i := i) as (Hle & Hout & Hadv).
  - intros j Hj. unfold c in Hj. apply andb_true_iff in Hj as [Hj _].
    now apply Nat.ltb_lt in Hj.
  - lia.
  - split; [exact Hle|]. split.
    + intros Hlt. subst c. cbv beta in Hout. apply Nat.ltb_lt in Hlt.
      rewrite Hlt in Hout. simpl in Hout.
      now apply Z.eqb_neq in Hout.
    + intros Hlt H0. apply Hadv. unfold c.
      apply andb_true_iff. split; [now apply Nat.ltb_lt | now apply Z.eqb_eq].
Qed.

Lemma in_down_spec (i : nat) :
  fst (in_down frame_states i) = ((i <? n) && (item frame_states i =? 1)%Z)
  /\ i <= snd (in_down frame_states i)
  /\ (fst (in_down frame_states i) = true -> i < snd (in_down frame_states i)).
Proof.
  unfold in_down.
  set (c := fun i => (i <? length frame_states) && (item frame_states i =? 1)%Z).
  rewrite (while_flagged c). simpl.
  destruct (while_cursor c n) with (fuel := n) (i := i) as (Hle & Hout & Hadv).
  - intros j Hj. unfold c in Hj. apply andb_true_iff in Hj as [Hj _].
    now apply Nat.ltb_lt in Hj.
  - lia.
  - assert (Hflag : negb (n =? 0) && c i = c i).
    { destruct (n =? 0) eqn:Hn; simpl; [|reflexivity].
      apply Nat.eqb_eq in Hn. unfold c. rewrite Hn.
      now destruct i. }
    rewrite Hflag. split; [reflexivity|]. split; [exact Hle|].
    intros Hc. apply Hadv. exact Hc.
Qed.

(** The three inner loops have stopped with the fuel the model gives
    them: any larger fuel gives the same cursor and flag. *)
Lemma inner_loops_terminate (fuel i : nat) :
  n <= fuel ->
  while_loop (fun i => (i <? n) && negb (item frame_states i =? 0)%Z) S fuel i
  = find_up frame_states i
  /\ while_loop (fun i => (i <? n) && (item frame_states i =? 0)%Z) S fuel i
     = find_down frame_states i
  /\ while_loop (fun st : bool * nat =>
                   (snd st <? n) && (item frame_states (snd st) =? 1)%Z)
                (fun st => (true, S (snd st))) fuel (false, i)
     = in_down frame_states i.
Proof.
  intros Hfuel.
  assert (Hrange : forall (p : nat -> bool) j, (j <? n) && p j = true -> j < n).
  { intros p j Hj. apply andb_true_iff in Hj as [Hj _]. now apply Nat.ltb_lt in Hj. }
  split; [|split].
  - apply (while_cursor_fuel _ n (Hrange _)); lia.
  - apply (while_cursor_fuel _ n (Hrange _)); lia.
  - unfold in_down. apply while_loop_stable; [|exact Hfuel].
    set (c := fun i => (i <? n) && (item frame_states i =? 1)%Z).
    rewrite (while_flagged c). cbn [snd].
    now destruct (while_cursor c n (Hrange _) n i) as (_ & Hout & _); [lia|].
Qed.
End SegmenterFacts.

Lemma in_order_snoc (reps : list (nat * nat)) (r : nat * nat) :
  in_order reps -> Forall (fun r0 => snd r0 <= fst r) reps -> in_order (reps ++ [r]).
Proof.
  unfold in_order. induction 1 as [|r0 reps Hs IH Hhd]; intros Hall; simpl.
  - repeat constructor.
  - inversion Hall as [|? ? Hr0 Hrest]; subst. constructor; [auto|].
    destruct Hhd; simpl; constructor; assumption.
Qed.

Section SegmenterLoop.
Import Segmenter.
Variable frame_states : list Z.
Local Abbreviation n := (length frame_states).

Lemma reps_upto_snoc (hi start end_ : nat) (reps : list (nat * nat)) :
  reps_upto n hi reps -> hi <= start -> start < end_ -> end_ < n ->
  reps_upto n end_ (reps ++ [(start, end_)]).
Proof.
  intros [Hall Hord] Hhi Hse Hn. split.
  - apply Forall_app. split.
    + eapply Forall_impl; [exact Hall|]. simpl. intros r (? & ? & ?). lia.
    + repeat constructor; simpl; lia.
  - apply in_order_snoc; [exact Hord|].
    eapply Forall_impl; [exact Hall|]. simpl. intros r (? & ? & ?). lia.
Qed.

(** The outer loop never runs out of fuel, and keeps the repetitions in
    order and inside the sequence. *)
Lemma segment_loop_spec (fuel i : nat) (reps : list (nat * nat)) :
  n - i < fuel -> reps_upto n i reps ->
  snd (segment_loop frame_states fuel i reps) <> OutOfFuel
  /\ exists hi, reps_upto n hi (fst (segment_loop frame_states fuel i reps)).
Proof.
  revert i reps. induction fuel as [|fuel IH]; intros i reps Hfuel Hinv; [lia|].
  cbn [segment_loop].
  destruct (i <? n - 1) eqn:Hcond; cbn [negb]; [|split; [discriminate | eauto]].
  apply Nat.ltb_lt in Hcond.
  destruct (find_up_spec frame_states i) as (Hup & Hup0).
  set (i1 := find_up frame_states i) in *.
  destruct (n - 1 <=? i1) eqn:H1; [split; [discriminate | eauto]|].
  apply Nat.leb_gt in H1.
  destruct (find_down_spec frame_states i1) as (Hdn & _ & Hdn1).
  set (i2 := find_down frame_states i1) in *.
  destruct (n <=? i2) eqn:H2; [split; [discriminate | eauto]|].
  apply Nat.leb_gt in H2.
  destruct (in_down_spec frame_states i2) as (_ & Hin & Hin1).
  destruct (in_down frame_states i2) as [saw_down i3]; simpl in Hin, Hin1.
  destruct saw_down; cbn [negb]; [|split; [discriminate | eauto]].
  destruct (n <=? i3) eqn:H3; [split; [discriminate | eauto]|].
  apply Nat.leb_gt in H3.
  assert (i1 < i2) by (apply Hdn1; [lia | apply Hup0; lia]).
  assert (i2 < i3) by auto.
  apply IH; [lia|].
  apply reps_upto_snoc with (hi := i); [assumption | lia | lia | lia].
Qed.

Lemma segment_run_spec :
  snd (segment_run frame_states) <> OutOfFuel
  /\ Forall (fun r => fst r < snd r /\ snd r < n) (segment_reps frame_states)
  /\ in_order (segment_reps frame_states).
Proof.
  unfold segment_reps, segment_run.
  destruct (segment_loop_spec (S n) 0 []) as (Hfuel & hi & Hall & Hord).
  - lia.
  - split; constructor.
  - split; [exact Hfuel|]. split; [|exact Hord].
    eapply Forall_impl; [exact Hall|]. simpl. intros r (? & ? & ?). lia.
Qed.

(** More fuel changes nothing. *)
Lemma segment_loop_fuel (fuel fuel' i : nat) (reps : list (nat * nat)) :
  snd (segment_loop frame_states fuel i reps) <> OutOfFuel -> fuel <= fuel' ->
  segment_loop frame_states fuel' i reps = segment_loop frame_states fuel i reps.
Proof.
  revert fuel' i reps. induction fuel as [|fuel IH]; intros fuel' i reps Hok Hle.
  - simpl in Hok. congruence.
  - destruct fuel' as [|fuel']; [lia|]. cbn [segment_loop] in *.
    destruct (negb (i <? n - 1)); [reflexivity|].
    destruct (n - 1 <=? find_up frame_states i); [reflexivity|].
    destruct (n <=? find_down frame_states (find_up frame_states i)); [reflexivity|].
    destruct (in_down frame_states (find_down frame_states (find_up frame_states i)))
      as [saw_down i3].
    destruct (negb saw_down); [reflexivity|].
    destruct (n <=? i3); [reflexivity|].
    apply IH; [exact Hok | lia].
Qed.

Hypothesis binary : Forall (fun v => v = 0%Z \/ v = 1%Z) frame_states.

Lemma item_binary (i : nat) :
  i < n -> item frame_states i = 0%Z \/ item frame_states i = 1%Z.
Proof using binary.
  intros Hi. unfold item.
  rewrite Forall_forall in binary. apply binary.
  apply list_elem_of_In. now apply nth_In.
Qed.

(** On 0/1 labels the cursor that leaves the UP run inside the sequence
    is on a DOWN frame, so the flag is set. *)
Lemma in_down_sets_flag (j : nat) :
  find_down frame_states j < n ->
  item frame_states (find_down frame_states j) = 1%Z
  /\ fst (in_down frame_states (find_down frame_states j)) = true.
Proof using binary.
  intros Hlt.
  destruct (find_down_spec frame_states j) as (_ & Hne & _).
  destruct (item_binary _ Hlt) as [H0 | H1]; [now apply Hne in H0|].
  split; [exact H1|].
  destruct (in_down_spec frame_states (find_down frame_states j)) as (Hflag & _).
  rewrite Hflag, H1. apply Nat.ltb_lt in Hlt. now rewrite Hlt.
Qed.

Lemma segment_loop_never_abandons (fuel i : nat) (reps : list (nat * nat)) :
  snd (segment_loop frame_states fuel i reps) <> BreakNotSawDown.
Proof using binary.
  revert i reps. induction fuel as [|fuel IH]; intros i reps; [discriminate|].
  cbn [segment_loop].
  destruct (negb (i <? n - 1)); [discriminate|].
  destruct (n - 1 <=? find_up frame_states i); [discriminate|].
  destruct (n <=? find_down frame_states (find_up frame_states i)) eqn:H2; [discriminate|].
  apply Nat.leb_gt in H2.
  destruct (in_down_sets_flag _ H2) as (_ & Hflag).
  destruct (in_down frame_states (find_down frame_states (find_up frame_states i)))
    as [saw_down i3]; simpl in Hflag; subst saw_down; cbn [negb].
  destruct (n <=? i3); [discriminate|]. apply IH.
Qed.
End SegmenterLoop.

(** [segment_reps] returns: with the fuel [segment_run] gives it the outer
    loop leaves by its condition or a [break], and any larger fuel gives
    the same repetitions. *)
Lemma segment_reps_terminates (frame_states : list Z) (fuel : nat) :
  S (length frame_states) <= fuel ->
  Segmenter.segment_loop frame_states fuel 0 [] = Segmenter.segment_run frame_states
  /\ snd (Segmenter.segment_run frame_states) <> Segmenter.OutOfFuel.
Proof.
  intros Hfuel. destruct (segment_run_spec frame_states) as (Hok & _).
  split; [|exact Hok].
  apply segment_loop_fuel; assumption.
Qed.

(** C1: on the labels [0,0,1,1,1,0,0,0,1,1,0] the segmenter returns the
    two repetitions (0,5) and (5,10), in that order. *)
Theorem segment_reps_concrete_case :
  Segmenter.segment_reps [0; 0; 1; 1; 1; 0; 0; 0; 1; 1; 0]%Z = [(0, 5); (5, 10)].
Proof. vm_compute. reflexivity. Qed.

(** C4: for every label sequence the repetitions returned by the
    segmenter have [start < end], and are listed in order with the end of
    each at most the start of the next. *)
Theorem segment_reps_non_overlapping (frame_states : list Z) :
  Forall (fun r => fst r < snd r) (Segmenter.segment_reps frame_states)
  /\ in_order (Segmenter.segment_reps frame_states).
Proof.
  destruct (segment_run_spec frame_states) as (_ & Hall & Hord).
  split; [|exact Hord].
  eapply Forall_impl; [exact Hall|]. simpl. intros r [? ?]. assumption.
Qed.

(** C10: on labels that are all 0 or 1, whenever the UP run is left with
    the cursor inside the sequence the label under the cursor is 1, the
    DOWN loop sets [saw_down], and no run of the outer loop leaves by
    [if not saw_down: break]. *)
Theorem segment_reps_abandon_unreachable (frame_states : list Z) :
  Forall (fun v => v = 0%Z \/ v = 1%Z) frame_states ->
  (forall j : nat,
      Segmenter.find_down frame_states j < length frame_states ->
      Segmenter.item frame_states (Segmenter.find_down frame_states j) = 1%Z
      /\ fst (Segmenter.in_down frame_states (Segmenter.find_down frame_states j)) = true)
  /\ (forall (fuel i : nat) (reps : list (nat * nat)),
        snd (Segmenter.segment_loop frame_states fuel i reps) <> Segmenter.BreakNotSawDown)
  /\ snd (Segmenter.segment_run frame_states) <> Segmenter.BreakNotSawDown.
Proof.
  intros binary. split; [|split].
  - intros j. now apply in_down_sets_flag.
  - intros fuel i reps. now apply segment_loop_never_abandons.
  - now apply segment_loop_never_abandons.
Qed.

Lemma segment_reps_abandon_unreachable_witness :
  Forall (fun v => v = 0%Z \/ v = 1%Z) [0; 0; 1; 1; 1; 0; 0; 0; 1; 1; 0]%Z
  /\ snd (Segmenter.segment_run [0; 0; 1; 1; 1; 0; 0; 0; 1; 1; 0]%Z)
     <> Segmenter.BreakNotSawDown.
Proof.
  assert (H : Forall (fun v => v = 0%Z \/ v = 1%Z) [0; 0; 1; 1; 1; 0; 0; 0; 1; 1; 0]%Z)
    by (repeat (constructor; [auto|]); constructor).
  split; [exact H|].
  exact (proj2 (proj2 (segment_reps_abandon_unreachable _ H))).
Defined.

(** With a label other than 0 and 1 the branch is taken. *)
Example segment_reps_abandons_on_other_label :
  Segmenter.segment_run [0; 2; 0]%Z = ([], Segmenter.BreakNotSawDown).
Proof. vm_compute. reflexivity. Qed.

(** A trailing UP run with no DOWN run after it gives no repetition. *)
Example segment_reps_drops_trailing_cycle :
  Segmenter.segment_run [0; 1; 0; 0]%Z = ([(0, 2)], Segmenter.BreakNoDown).
Proof. vm_compute. reflexivity. Qed.

(** ** Transition Fitter *)

Section TransitionFacts.
Import HMM.
Local Open Scope R_scope.

Lemma add_item2_binary (counts : list (list R)) (a b : Z) :
  smoothed_counts counts ->
  (a = 0 \/ a = 1)%Z -> (b = 0 \/ b = 1)%Z ->
  exists counts', Numpy.add_item2 counts a b 1 = Some counts' /\ smoothed_counts counts'.
Proof.
  intros (c00 & c01 & c10 & c11 & -> & H00 & H01 & H10 & H11) [-> | ->] [-> | ->];
    (eexists; split; [reflexivity|]);
    do 4 eexists; (split; [reflexivity|]); lra.
Qed.

Variable state_seq : list Z.
Hypothesis binary : Forall (fun v => v = 0%Z \/ v = 1%Z) state_seq.

(** The counting loop of [fit_transitions] over any indices of
    consecutive pairs. *)
Lemma count_loop_spec (indices : list nat) (counts : list (list R)) :
  Forall (fun i => (i + 1 < length state_seq)%nat) indices ->
  smoothed_counts counts ->
  exists counts',
    foldl (fun counts i =>
             counts ← counts;
             a ← state_seq !! i;
             b ← state_seq !! (i + 1)%nat;
             Numpy.add_item2 counts a b 1)
          (Some counts) indices = Some counts'
    /\ smoothed_counts counts'.
Proof using binary.
  revert counts. induction indices as [|i indices IH]; intros counts Hidx Hc.
  - exists counts. split; [reflexivity | exact Hc].
  - inversion Hidx as [|? ? Hi Hrest]; subst.
    destruct (lookup_lt_is_Some_2 state_seq i) as [a Ha]; [lia|].
    destruct (lookup_lt_is_Some_2 state_seq (i + 1)) as [b Hb]; [lia|].
    destruct (add_item2_binary counts a b Hc) as (counts1 & Hadd & Hc1).
    + exact (Forall_lookup_1 _ _ _ _ binary Ha).
    + exact (Forall_lookup_1 _ _ _ _ binary Hb).
    + cbn [foldl]. cbn [mbind option_bind]. rewrite Ha, Hb. cbn [mbind option_bind].
      rewrite Hadd. apply IH; assumption.
Qed.
End TransitionFacts.

Lemma normalize_rows_stochastic (counts : list (list R)) :
  smoothed_counts counts ->
  exists p00 p01 p10 p11 : R,
    HMM.normalize_rows counts = [[p00; p01]; [p10; p11]]
    /\ (p00 + p01 = 1 /\ p10 + p11 = 1)%R
    /\ (0 < p00 /\ 0 < p01 /\ 0 < p10 /\ 0 < p11)%R.
Proof.
  intros (a & b & c & d & -> & Ha & Hb & Hc & Hd).
  do 4 eexists. split; [reflexivity|]. unfold Numpy.sum. cbn [foldr].
  split; [split; field; lra|].
  repeat split; apply Rdiv_lt_0_compat; lra.
Qed.

(** On 0/1 labels [fit_transitions] returns a 2 x 2 matrix. *)
Lemma fit_transitions_returns (state_seq : list Z) :
  Forall (fun v => v = 0%Z \/ v = 1%Z) state_seq ->
  exists p00 p01 p10 p11 : R,
    HMM.fit_transitions state_seq = Some [[p00; p01]; [p10; p11]].
Proof.
  intros binary. unfold HMM.fit_transitions.
  destruct (count_loop_spec state_seq binary (seq 0 (length state_seq - 1))
              (replicate NUM_STATES (replicate NUM_STATES 1%R)))
    as (counts & Hloop & (a & b & c & d & -> & _)).
  - apply Forall_seq. intros j Hj. lia.
  - exists 1%R, 1%R, 1%R, 1%R. split; [reflexivity | lra].
  - rewrite Hloop. do 4 eexists. reflexivity.
Qed.

(** C5: for every sequence of 0/1 labels, the empty and one-element
    sequences among them, [fit_transitions] returns a 2 x 2 matrix whose
    two rows each sum to 1 and whose four entries are all positive. *)
Theorem fit_transitions_row_stochastic (state_seq : list Z) :
  Forall (fun v => v = 0%Z \/ v = 1%Z) state_seq ->
  exists p00 p01 p10 p11 : R,
    HMM.fit_transitions state_seq = Some [[p00; p01]; [p10; p11]]
    /\ (p00 + p01 = 1 /\ p10 + p11 = 1)%R
    /\ (0 < p00 /\ 0 < p01 /\ 0 < p10 /\ 0 < p11)%R.
Proof.
  intros binary. unfold HMM.fit_transitions.
  destruct (count_loop_spec state_seq binary (seq 0 (length state_seq - 1))
              (replicate NUM_STATES (replicate NUM_STATES 1%R)))
    as (counts & Hloop & Hcounts).
  - apply Forall_seq. intros j Hj. lia.
  - exists 1%R, 1%R, 1%R, 1%R. split; [reflexivity | lra].
  - rewrite Hloop. cbn [mbind option_bind].
    destruct (normalize_rows_stochastic counts Hcounts)
      as (p00 & p01 & p10 & p11 & -> & Hsum & Hpos).
    exists p00, p01, p10, p11. auto.
Qed.

Lemma fit_transitions_row_stochastic_witness :
  Forall (fun v => v = 0%Z \/ v = 1%Z) [0; 1; 1; 0]%Z
  /\ exists p00 p01 p10 p11 : R,
       HMM.fit_transitions [0; 1; 1; 0]%Z = Some [[p00; p01]; [p10; p11]]
       /\ (p00 + p01 = 1 /\ p10 + p11 = 1)%R
       /\ (0 < p00 /\ 0 < p01 /\ 0 < p10 /\ 0 < p11)%R.
Proof.
  assert (H : Forall (fun v => v = 0%Z \/ v = 1%Z) [0; 1; 1; 0]%Z)
    by (repeat (constructor; [auto|]); constructor).
  split; [exact H|].
  exact (fit_transitions_row_stochastic _ H).
Defined.

(** The counts on a short sequence: one 0->1, one 1->1 and one 1->0
    transition on top of the initial ones. *)
Example fit_transitions_counts :
  HMM.fit_transitions [0; 1; 1; 0]%Z
  = Some [[1 / (1 + (1 + 1 + 0)); (1 + 1) / (1 + (1 + 1 + 0))];
          [(1 + 1) / (1 + 1 + (1 + 1 + 0)); (1 + 1) / (1 + 1 + (1 + 1 + 0))]]%R.
Proof. reflexivity. Qed.

(** On the empty and the one-element sequence every entry is 1/2. *)
Example fit_transitions_empty :
  HMM.fit_transitions [] = Some [[1 / (1 + (1 + 0)); 1 / (1 + (1 + 0))];
                                 [1 / (1 + (1 + 0)); 1 / (1 + (1 + 0))]]%R
  /\ HMM.fit_transitions [1%Z] = HMM.fit_transitions [].
Proof. split; reflexivity. Qed.

(** ** Emission Fitter *)

Lemma fit_gaussian_floor (arr : list (list R)) :
  arr <> [] ->
  exists mu sd : list R,
    HMM.fit_gaussian arr = Some (mu, sd) /\ Forall (fun v => (1e-6 <= v)%R) sd.
Proof.
  intros Hne. destruct arr as [|row arr]; [congruence|].
  unfold HMM.fit_gaussian. do 2 eexists. split; [reflexivity|].
  apply Forall_map. apply Forall_forall. intros v _. cbv beta.
  destruct (Rlt_dec v 1e-6); lra.
Qed.

(** With both buckets non-empty [fit_gaussians] returns two mean vectors
    and two standard-deviation vectors. *)
Lemma fit_gaussians_returns (bucket0 bucket1 : list (list R)) :
  bucket0 <> [] -> bucket1 <> [] ->
  exists mu0 mu1 sd0 sd1 : list R,
    HMM.fit_gaussians [bucket0; bucket1] = Some ([mu0; mu1], [sd0; sd1]).
Proof.
  intros Hne0 Hne1.
  destruct bucket0 as [|row0 bucket0]; [congruence|].
  destruct bucket1 as [|row1 bucket1]; [congruence|].
  do 4 eexists. reflexivity.
Qed.

(** C9: when both label buckets are non-empty [fit_gaussians] returns,
    and every component of both standard-deviation vectors is at least
    1e-6. *)
Theorem fit_gaussians_std_floor (features_per_state : list (list (list R)))
    (bucket0 bucket1 : list (list R)) :
  features_per_state !! 0 = Some bucket0 ->
  features_per_state !! 1 = Some bucket1 ->
  bucket0 <> [] -> bucket1 <> [] ->
  exists (means : list (list R)) (sd0 sd1 : list R),
    HMM.fit_gaussians features_per_state = Some (means, [sd0; sd1])
    /\ length means = 2
    /\ Forall (fun v => (1e-6 <= v)%R) sd0
    /\ Forall (fun v => (1e-6 <= v)%R) sd1.
Proof.
  intros H0 H1 Hne0 Hne1.
  destruct (fit_gaussian_floor bucket0 Hne0) as (mu0 & sd0 & Hfit0 & Hsd0).
  destruct (fit_gaussian_floor bucket1 Hne1) as (mu1 & sd1 & Hfit1 & Hsd1).
  exists [mu0; mu1], sd0, sd1.
  unfold HMM.fit_gaussians. cbn [NUM_STATES seq mapM mbind option_bind].
  rewrite H0. cbn [mbind option_bind]. rewrite Hfit0.
  cbn [mbind option_bind]. rewrite H1. cbn [mbind option_bind]. rewrite Hfit1.
  cbn. auto.
Qed.

Lemma fit_gaussians_std_floor_witness :
  exists (means : list (list R)) (sd0 sd1 : list R),
    HMM.fit_gaussians [[[0; 0]; [0; 0]]; [[1; 2]]]%R = Some (means, [sd0; sd1])
    /\ length means = 2
    /\ Forall (fun v => (1e-6 <= v)%R) sd0
    /\ Forall (fun v => (1e-6 <= v)%R) sd1.
Proof.
  apply (fit_gaussians_std_floor [[[0; 0]; [0; 0]]; [[1; 2]]]%R
           [[0; 0]; [0; 0]]%R [[1; 2]]%R);
    [reflexivity | reflexivity | discriminate | discriminate].
Defined.

(** An empty bucket makes [fit_gaussians] raise. *)
Example fit_gaussians_empty_bucket :
  HMM.fit_gaussians [[[0; 0]]; []]%R = None.
Proof. reflexivity. Qed.

(** ** Viterbi decoder *)

Section ViterbiFacts.
Import HMM.
Local Open Scope R_scope.

(** [argmax] keeps the running best over entries that are no larger: of
    equal maxima the first wins. *)
Lemma argmax_from_keeps (best_i : nat) (best : R) (i : nat) (a : list R) :
  Forall (fun v => v <= best) a -> Numpy.argmax_from best_i best i a = best_i.
Proof.
  intros Hall. revert i. induction Hall as [|v a Hv Hall IH]; intros i; simpl.
  - reflexivity.
  - destruct (Rlt_dec best v); [lra | apply IH].
Qed.

Lemma argmax_tie (a : R) : Numpy.argmax [a; a] = Some 0%nat.
Proof.
  unfold Numpy.argmax. f_equal. apply argmax_from_keeps.
  constructor; [lra | constructor].
Qed.

Lemma rev_replicate {A : Type} (k : nat) (a : A) :
  rev (replicate k a) = replicate k a.
Proof.
  induction k as [|k IH]; [reflexivity|]. simpl. rewrite IH.
  clear IH. induction k as [|k IH]; [reflexivity|]. simpl. now rewrite IH.
Qed.

Lemma backtrack_zero (k : nat) :
  backtrack (replicate k [0; 0]%nat) 0 = replicate (S k) 0%nat.
Proof.
  induction k as [|k IH]; [reflexivity|]. simpl. now rewrite IH.
Qed.

Variable emit : nat -> nat -> R.
Variable q : R.
Hypothesis emit_symmetric : forall t, emit t 1%nat = emit t 0%nat.

(** With equal transition entries and equal emissions a row of [dp]
    with two equal entries is followed by one, and both back pointers
    are 0. *)
Lemma viterbi_step_symmetric (v : R) (back : list (list nat)) (t : nat) :
  viterbi_step 2 [[q; q]; [q; q]] emit ([v; v], back) t
  = Some ([v + q + emit t 0%nat; v + q + emit t 0%nat], back ++ [[0; 0]%nat]).
Proof using emit_symmetric.
  unfold viterbi_step. cbn [seq mapM fst snd Numpy.column map nth zip_with].
  rewrite !argmax_tie. cbn [mbind option_bind mret option_ret nth map fst snd].
  now rewrite emit_symmetric.
Qed.

Lemma viterbi_recursion_symmetric (ts : list nat) (v : R) (back : list (list nat)) :
  exists v' : R,
    foldl (fun dp_back t =>
             dp_back ← dp_back; viterbi_step 2 [[q; q]; [q; q]] emit dp_back t)
          (Some ([v; v], back)) ts
    = Some ([v'; v'], back ++ replicate (length ts) [0; 0]%nat).
Proof using emit_symmetric.
  revert v back. induction ts as [|t ts IH]; intros v back.
  - exists v. cbn. now rewrite app_nil_r.
  - cbn [foldl mbind option_bind]. rewrite viterbi_step_symmetric.
    destruct (IH (v + q + emit t 0%nat) (back ++ [[0; 0]%nat])) as (v' & ->).
    exists v'. cbn [length replicate]. now rewrite <- app_assoc.
Qed.
End ViterbiFacts.

(** C2: on a sequence of length [T >= 1], with the two entries of the
    log-prior equal, the four entries of the log-transition matrix equal
    and the two states sharing their means and standard deviations, the
    decoder returns the path that is state 0 at each of the [T] steps. *)
Theorem viterbi_tie_break_state_zero (sequence : list (list R)) (p q : R)
    (mu sd : list R) :
  1 <= length sequence ->
  exists best_log : R,
    HMM.viterbi_loglik sequence [p; p] [[q; q]; [q; q]] [mu; mu] [sd; sd]
    = Some (replicate (length sequence) 0, best_log).
Proof.
  intros HT. unfold HMM.viterbi_loglik.
  destruct (length sequence =? 0) eqn:HT0; [apply Nat.eqb_eq in HT0; lia|].
  cbn [length seq mapM lookup list_lookup mbind option_bind mret option_ret].
  cbn [map seq zip_with nth].
  set (col := HMM.log_emit_column sequence mu sd).
  match goal with
  | |- context [HMM.viterbi_step 2 _ ?emit] =>
      destruct (viterbi_recursion_symmetric emit q (fun t => eq_refl)
                  (seq 1 (length sequence - 1)) (p + nth 0 col 0)%R [])
        as (v & Hfold)
  end.
  rewrite Hfold. cbn [mbind option_bind fst snd]. rewrite argmax_tie.
  cbn [mbind option_bind app]. rewrite length_seq.
  rewrite rev_replicate, backtrack_zero, rev_replicate.
  replace (S (length sequence - 1)) with (length sequence) by lia.
  eexists. reflexivity.
Qed.

Lemma viterbi_tie_break_state_zero_witness :
  exists best_log : R,
    HMM.viterbi_loglik [[0; 0]; [1; 1]; [2; 2]]%R [ln (1 / 2); ln (1 / 2)]%R
      [[ln (1 / 2); ln (1 / 2)]; [ln (1 / 2); ln (1 / 2)]]%R
      [[0; 0]; [0; 0]]%R [[1; 1]; [1; 1]]%R
    = Some ([0; 0; 0], best_log).
Proof.
  apply (viterbi_tie_break_state_zero [[0; 0]; [1; 1]; [2; 2]]%R
           (ln (1 / 2)) (ln (1 / 2)) [0; 0]%R [1; 1]%R).
  simpl. lia.
Defined.

(** The decoder raises on an empty sequence. *)
Example viterbi_empty_sequence (log_prior : list R) (log_trans means stds : list (list R)) :
  HMM.viterbi_loglik [] log_prior log_trans means stds = None.
Proof. reflexivity. Qed.

(** ** Feature Normalizer *)

Section NormalizerFacts.
Import Features.
Local Open Scope R_scope.

Lemma hypot_scale (k a b : R) : 0 < k -> hypot (k * a) (k * b) = k * hypot a b.
Proof.
  intros Hk. unfold hypot.
  replace (k * a * (k * a) + k * b * (k * b)) with ((k * k) * (a * a + b * b)) by ring.
  rewrite sqrt_mult; [|nra|nra].
  rewrite sqrt_square; [reflexivity | lra].
Qed.

Lemma hypot_nonneg (a b : R) : 0 <= hypot a b.
Proof. apply sqrt_pos. Qed.

Lemma dist_transform (k tx ty : R) (a b : point) :
  0 < k ->
  dist (k * fst a + tx, k * snd a + ty) (k * fst b + tx, k * snd b + ty)
  = k * dist a b.
Proof.
  intros Hk. unfold dist. cbn [fst snd].
  rewrite <- hypot_scale by assumption. f_equal; ring.
Qed.

Variables (k tx ty : R) (lms : landmarks).
Hypothesis k_pos : 0 < k.

Lemma torso_length_transform :
  torso_length (transform k tx ty lms) = k * torso_length lms.
Proof using k_pos.
  unfold torso_length, transform. cbn [x y fst snd].
  rewrite <- dist_transform with (tx := tx) (ty := ty) by assumption.
  cbn [fst snd]. f_equal; f_equal; field.
Qed.

Lemma hip_width_transform :
  hip_width (transform k tx ty lms) = k * hip_width lms.
Proof using k_pos.
  unfold hip_width, transform. cbn [x y fst snd].
  rewrite <- dist_transform with (tx := tx) (ty := ty) by assumption.
  reflexivity.
Qed.
End NormalizerFacts.

Section NormalizerResult.
Import Features.
Local Open Scope R_scope.

(** What [extract_feature_vector] returns when no joint is below the
    visibility threshold. *)
Lemma extract_visible (lms : landmarks) :
  (forall lm, ~ visibility (lms lm) < 0.3) ->
  extract_feature_vector lms
  = match scale_source_of lms with
    | ShoulderHip => Some (normalized lms (torso_length lms))
    | HipWidth => Some (normalized lms (hip_width lms))
    | NoScale => None
    end.
Proof.
  intros Hvis. unfold extract_feature_vector, JOINT_ORDER.
  cbn [mapM]. unfold get_visible.
  repeat match goal with
         | |- context [Rlt_dec (visibility (lms ?lm)) 0.3] =>
             destruct (Rlt_dec (visibility (lms lm)) 0.3) as [Hlow | _];
             [exfalso; exact (Hvis lm Hlow) | ]
         end.
  cbn [mbind option_bind mret option_ret fst snd].
  unfold scale_source_of, torso_length, hip_width. cbn [fst snd].
  destruct (Rlt_dec _ 1e-3); [destruct (Rlt_dec _ 1e-3)|]; reflexivity.
Qed.

Lemma normalized_transform (k tx ty scale : R) (lms : landmarks) :
  0 < k -> 0 < scale ->
  normalized (transform k tx ty lms) (k * scale) = normalized lms scale.
Proof.
  intros Hk Hs. unfold normalized, transform, JOINT_ORDER.
  cbn [flat_map app x y].
  repeat (apply (f_equal2 cons); [field; lra|]). reflexivity.
Qed.
End NormalizerResult.

Section NormalizerInvariance.
Import Features.
Local Open Scope R_scope.

Lemma scale_source_torso (lms : landmarks) :
  scale_source_of lms = ShoulderHip -> 1e-3 <= torso_length lms.
Proof.
  unfold scale_source_of.
  destruct (Rlt_dec (torso_length lms) 1e-3);
    [destruct (Rlt_dec (hip_width lms) 1e-3); discriminate | lra].
Qed.

Lemma scale_source_hips (lms : landmarks) :
  scale_source_of lms = HipWidth -> 1e-3 <= hip_width lms.
Proof.
  unfold scale_source_of.
  destruct (Rlt_dec (torso_length lms) 1e-3);
    [destruct (Rlt_dec (hip_width lms) 1e-3); [discriminate | lra] | discriminate].
Qed.

Lemma torso_length_small_pose : torso_length small_pose = 0.002.
Proof.
  unfold torso_length, small_pose, dist, hypot. cbn [x y fst snd].
  replace (_ + _) with (0.002 * 0.002) by field.
  apply sqrt_square. lra.
Qed.

Lemma hip_width_small_pose : hip_width small_pose = 0.
Proof.
  unfold hip_width, small_pose, dist, hypot. cbn [x y fst snd].
  replace (_ + _) with (0 * 0) by ring.
  apply sqrt_square. lra.
Qed.

Lemma small_pose_visible (k tx ty : R) (lm : PoseLandmark) :
  0.3 < visibility (small_pose lm)
  /\ 0.3 < visibility (transform k tx ty small_pose lm).
Proof. destruct lm; cbn; lra. Qed.

Lemma scale_source_small_pose (k tx ty : R) :
  0 < k ->
  scale_source_of (transform k tx ty small_pose)
  = if Rlt_dec (k * 0.002) 1e-3 then NoScale else ShoulderHip.
Proof.
  intros Hk. unfold scale_source_of.
  rewrite torso_length_transform, hip_width_transform by assumption.
  rewrite torso_length_small_pose, hip_width_small_pose.
  destruct (Rlt_dec (k * 0.002) 1e-3); [|reflexivity].
  destruct (Rlt_dec (k * 0) 1e-3); [reflexivity | lra].
Qed.
End NormalizerInvariance.

(** C3, as stated, fails: scaling [small_pose] by 0.1 (and moving it by
    (1, 2)) takes its shoulder-hip distance from 0.002 to 0.0002, below
    the 1e-3 guard, and the hips coincide, so the transformed pose gives
    no feature vector while the original gives one. *)
Lemma extract_feature_vector_scale_guard_counterexample :
  (forall lm, 0.3 < Features.visibility (small_pose lm))%R
  /\ (0 < 0.1)%R
  /\ Features.extract_feature_vector small_pose
     = Some [0; 1; 0; 1; 0; 0; 0; 0; 0; 0; 0; 0; 0; 0; 0; 0]%R
  /\ Features.extract_feature_vector (transform 0.1 1 2 small_pose) = None.
Proof.
  split; [intros lm; apply (small_pose_visible 1 0 0 lm)|].
  split; [lra|]. split.
  - rewrite extract_visible
      by (intros lm; pose proof (small_pose_visible 1 0 0 lm); lra).
    unfold scale_source_of. rewrite torso_length_small_pose.
    destruct (Rlt_dec 0.002 1e-3); [lra|].
    unfold normalized, small_pose, Features.JOINT_ORDER.
    cbn [flat_map app Features.x Features.y].
    f_equal. repeat (apply (f_equal2 cons); [lra|]). reflexivity.
  - rewrite extract_visible
      by (intros lm; pose proof (small_pose_visible 0.1 1 2 lm); lra).
    rewrite scale_source_small_pose by lra.
    destruct (Rlt_dec (0.1 * 0.002) 1e-3); [reflexivity | lra].
Qed.

(** C3, amended: with every visibility above 0.3 and [k > 0], if the 1e-3
    guards select the same scale source for the transformed pose as for
    the original, [extract_feature_vector] returns the same result for
    both; it is a vector of 16 numbers unless no scale is selected. *)
Theorem extract_feature_vector_invariant (lms : Features.landmarks) (k tx ty : R) :
  (forall lm, 0.3 < Features.visibility (lms lm))%R ->
  (0 < k)%R ->
  scale_source_of (transform k tx ty lms) = scale_source_of lms ->
  Features.extract_feature_vector (transform k tx ty lms)
  = Features.extract_feature_vector lms
  /\ (scale_source_of lms <> NoScale ->
      exists feat : list R,
        Features.extract_feature_vector lms = Some feat /\ length feat = NUM_FEATURES).
Proof.
  intros Hvis Hk Hsame.
  rewrite (extract_visible (transform k tx ty lms))
    by (intros lm; cbn; specialize (Hvis lm); lra).
  rewrite (extract_visible lms) by (intros lm; specialize (Hvis lm); lra).
  rewrite Hsame. destruct (scale_source_of lms) eqn:Hsrc.
  - apply scale_source_torso in Hsrc.
    rewrite torso_length_transform, normalized_transform by lra.
    split; [reflexivity|]. intros _. eexists. split; reflexivity.
  - apply scale_source_hips in Hsrc.
    rewrite hip_width_transform, normalized_transform by lra.
    split; [reflexivity|]. intros _. eexists. split; reflexivity.
  - split; [reflexivity | congruence].
Qed.

Lemma extract_feature_vector_invariant_witness :
  Features.extract_feature_vector (transform 2 1 2 small_pose)
  = Features.extract_feature_vector small_pose
  /\ (scale_source_of small_pose <> NoScale ->
      exists feat : list R,
        Features.extract_feature_vector small_pose = Some feat
        /\ length feat = NUM_FEATURES).
Proof.
  apply (extract_feature_vector_invariant small_pose 2 1 2).
  - intros lm. apply (small_pose_visible 1 0 0 lm).
  - lra.
  - rewrite scale_source_small_pose by lra.
    unfold scale_source_of. rewrite torso_length_small_pose.
    destruct (Rlt_dec (2 * 0.002) 1e-3); [lra|].
    destruct (Rlt_dec 0.002 1e-3); [lra | reflexivity].
Defined.

(** ** The decoder returns *)

Section ViterbiReturns.
Import HMM.
Local Open Scope R_scope.

Variable S : nat.
Variable log_trans : list (list R).
Variable emit : nat -> nat -> R.
Hypothesis some_state : (1 <= S)%nat.
Hypothesis some_row : log_trans <> [].

Lemma viterbi_step_returns (dp : list R) (back : list (list nat)) (t : nat) :
  length dp = S ->
  exists (dp' : list R) (back' : list (list nat)),
    viterbi_step S log_trans emit (dp, back) t = Some (dp', back')
    /\ length dp' = S.
Proof using some_state some_row.
  intros Hdp. unfold viterbi_step. cbn [fst snd].
  match goal with
  | |- context [mapM ?f (seq 0 S)] =>
      destruct (mapM f (seq 0 S)) as [cells|] eqn:Hcells
  end.
  - cbn [mbind option_bind]. do 2 eexists. split; [reflexivity|].
    apply length_mapM in Hcells. rewrite length_map, <- Hcells. apply length_seq.
  - exfalso. apply mapM_None_1 in Hcells. apply Exists_exists in Hcells.
    destruct Hcells as (s & _ & Hs).
    destruct dp as [|d dp]; [simpl in Hdp; lia|].
    destruct log_trans as [|row rows]; [congruence|].
    cbn in Hs. discriminate.
Qed.

Lemma viterbi_recursion_returns (ts : list nat) (dp : list R) (back : list (list nat)) :
  length dp = S ->
  exists (dp' : list R) (back' : list (list nat)),
    foldl (fun dp_back t =>
             dp_back ← dp_back; viterbi_step S log_trans emit dp_back t)
          (Some (dp, back)) ts
    = Some (dp', back')
    /\ length dp' = S.
Proof using some_state some_row.
  revert dp back. induction ts as [|t ts IH]; intros dp back Hdp.
  - exists dp, back. split; [reflexivity | exact Hdp].
  - destruct (viterbi_step_returns dp back t Hdp) as (dp1 & back1 & Hstep & Hdp1).
    cbn [foldl mbind option_bind]. rewrite Hstep. apply IH. exact Hdp1.
Qed.
End ViterbiReturns.

(** On a non-empty sequence, with at least one state and parameters for
    each state, [viterbi_loglik] returns a path and a log-likelihood. *)
Lemma viterbi_loglik_returns (sequence : list (list R)) (log_prior : list R)
    (log_trans means stds : list (list R)) :
  sequence <> [] ->
  1 <= length log_prior ->
  length log_prior <= length means ->
  length log_prior <= length stds ->
  log_trans <> [] ->
  is_Some (HMM.viterbi_loglik sequence log_prior log_trans means stds).
Proof.
  intros Hseq HS Hmeans Hstds Htrans. unfold HMM.viterbi_loglik.
  destruct (length sequence =? 0) eqn:HT;
    [apply Nat.eqb_eq in HT; destruct sequence; [congruence | discriminate]|].
  match goal with
  | |- context [mapM ?f (seq 0 (length log_prior))] =>
      destruct (mapM f (seq 0 (length log_prior))) as [log_emit|] eqn:Hemit
  end.
  - cbn [mbind option_bind].
    match goal with
    | |- context [foldl _ (Some (?dp0, [])) ?ts] =>
        destruct (viterbi_recursion_returns (length log_prior) log_trans
                    (fun t s => nth t (nth s log_emit []) 0%R) HS Htrans ts dp0 [])
          as (dp & back & Hfold & Hdp)
    end.
    + rewrite length_zip_with, length_map, length_seq. lia.
    + rewrite Hfold. cbn [mbind option_bind fst snd].
      destruct dp as [|d dp]; [simpl in Hdp; lia|].
      cbn [Numpy.argmax mbind option_bind]. eexists. reflexivity.
  - exfalso. apply mapM_None_1 in Hemit. apply Exists_exists in Hemit.
    destruct Hemit as (s & Hin & Hs).
    apply elem_of_seq in Hin.
    destruct (lookup_lt_is_Some_2 means s) as [mu Hmu]; [lia|].
    destruct (lookup_lt_is_Some_2 stds s) as [sd Hsd]; [lia|].
    rewrite Hmu, Hsd in Hs. discriminate.
Qed.

(** ** Main pipeline *)

Section PipelineFacts.
Import HMM Segmenter Pipeline.
Local Open Scope R_scope.

(** A run of [main] past the bucket check, given what each helper
    returns. *)
Lemma main_after_forward_pass_run
    (all_features : list (list R)) (all_states : list Z)
    (bucket0 bucket1 : list (list R)) (means stds trans : list (list R))
    (first_state : Z) (prior : list R)
    (reps : list (nat * nat)) (rep_loglikes : list R)
    (trace_reps trace_score : list event) :
  all_features <> [] ->
  group_by_state all_features all_states = Some [bucket0; bucket1] ->
  bucket0 <> [] -> bucket1 <> [] ->
  fit_gaussians [bucket0; bucket1] = Some (means, stds) ->
  fit_transitions all_states = Some trans ->
  all_states !! 0%nat = Some first_state ->
  fit_prior first_state = Some prior ->
  detect_reps all_states = Run trace_reps (inr reps) ->
  score_reps all_features reps (map ln prior) (map (map ln) trans) means stds
  = Run trace_score (inr rep_loglikes) ->
  let model := build_model (map ln prior) (map (map ln) trans) means stds rep_loglikes in
  main_after_forward_pass all_features all_states
  = Run ([CallFitGaussians; CallFitTransitions; CallFitPrior]
           ++ trace_reps ++ trace_score
           ++ [JsonDump model; Printed SavedModel;
               Printed (RepsDetected (length reps));
               Printed (MeanStd (meanLogLikelihood model) (stdLogLikelihood model))])
        (inr tt).
Proof.
  intros Hne Hgroup Hb0 Hb1 Hgauss Htrans Hfirst Hprior Hreps Hscore model.
  unfold main_after_forward_pass.
  destruct all_features as [|feat all_features]; [congruence|].
  rewrite Hgroup.
  cbn [length Nat.eqb NUM_STATES seq for_each call lookup list_lookup
       mbind M_bind mret M_ret result trace tell print return_ app].
  destruct bucket0 as [|v0 bucket0]; [congruence|].
  destruct bucket1 as [|v1 bucket1]; [congruence|].
  cbn [length Nat.eqb mbind M_bind mret M_ret result trace app].
  rewrite Hgauss, Htrans, Hfirst.
  cbn [call mbind M_bind mret M_ret result trace app fst snd].
  rewrite Hprior.
  cbn [call mbind M_bind mret M_ret result trace app fst snd].
  rewrite Hreps.
  cbn [call mbind M_bind mret M_ret result trace app fst snd].
  rewrite Hscore.
  cbn [call mbind M_bind mret M_ret result trace app fst snd].
  reflexivity.
Qed.
End PipelineFacts.

Section PipelineBlocks.
Import HMM Segmenter Pipeline.
Local Open Scope R_scope.

Lemma fit_prior_binary (first_state : Z) :
  (first_state = 0 \/ first_state = 1)%Z ->
  exists p0 p1 : R, fit_prior first_state = Some [p0; p1].
Proof. intros [-> | ->]; do 2 eexists; reflexivity. Qed.

(** Grouping keeps the number of buckets. *)
Lemma group_by_state_length (all_features : list (list R)) (all_states : list Z)
    (features_per_state : list (list (list R))) :
  group_by_state all_features all_states = Some features_per_state ->
  length features_per_state = NUM_STATES.
Proof.
  unfold group_by_state.
  generalize (zip all_features all_states).
  assert (Hlen : length (replicate NUM_STATES ([] : list (list R))) = NUM_STATES)
    by reflexivity.
  revert Hlen. generalize (replicate NUM_STATES ([] : list (list R))).
  intros fps0 Hlen pairs. revert fps0 Hlen.
  induction pairs as [|xs pairs IH]; intros fps0 Hlen Hfold.
  - cbn in Hfold. congruence.
  - cbn [foldl mbind option_bind] in Hfold.
    destruct (Numpy.py_index (length fps0) (snd xs)) as [k|];
      cbn [mbind option_bind] in Hfold.
    + destruct (fps0 !! k) as [bucket|]; cbn [mbind option_bind] in Hfold.
      * apply IH in Hfold; [exact Hfold|]. now rewrite length_insert.
      * clear IH. exfalso. induction pairs; cbn in Hfold; [discriminate | auto].
    + clear IH. exfalso. induction pairs; cbn in Hfold; [discriminate | auto].
Qed.

Lemma slice_nonempty {A : Type} (a : list A) (start end_ : nat) :
  (start < end_)%nat -> (end_ < length a)%nat ->
  Numpy.slice a start (end_ + 1) <> [].
Proof.
  intros Hse Hen Hnil. apply (f_equal length) in Hnil.
  unfold Numpy.slice in Hnil. rewrite length_take, length_drop in Hnil.
  simpl in Hnil. lia.
Qed.

Lemma slice_whole {A : Type} (a : list A) :
  a <> [] -> Numpy.slice a 0 (length a - 1 + 1) = a.
Proof.
  intros Hne. unfold Numpy.slice. cbn [drop].
  apply take_ge. destruct a; [congruence | simpl; lia].
Qed.

Lemma detect_reps_fallback (all_states : list Z) :
  segment_reps all_states = [] ->
  detect_reps all_states
  = Run [CallSegmentReps; Printed NoRepsDetected]
        (inr [(0, length all_states - 1)%nat]).
Proof. intros Hnone. unfold detect_reps. rewrite Hnone. reflexivity. Qed.

Lemma detect_reps_found (all_states : list Z) :
  segment_reps all_states <> [] ->
  detect_reps all_states = Run [CallSegmentReps] (inr (segment_reps all_states)).
Proof.
  intros Hsome. unfold detect_reps.
  destruct (segment_reps all_states); [congruence | reflexivity].
Qed.

(** The repetitions [main] goes on with are never none, and each has a
    non-empty slice of the features. *)
Lemma detect_reps_spec (all_features : list (list R)) (all_states : list Z) :
  length all_features = length all_states -> all_features <> [] ->
  exists (events : list event) (reps : list (nat * nat)),
    detect_reps all_states = Run events (inr reps)
    /\ reps <> []
    /\ Forall (fun rep => Numpy.slice all_features (fst rep) (snd rep + 1) <> []) reps.
Proof.
  intros Hlen Hne. destruct (segment_reps all_states) as [|rep reps] eqn:Hseg.
  - do 2 eexists. split; [now apply detect_reps_fallback|].
    split; [discriminate|]. repeat constructor. cbn [fst snd].
    rewrite <- Hlen, slice_whole; assumption.
  - do 2 eexists. split; [apply detect_reps_found; congruence|].
    rewrite Hseg. split; [discriminate|].
    destruct (segment_run_spec all_states) as (_ & Hall & _).
    rewrite Hseg in Hall. eapply Forall_impl; [exact Hall|].
    intros r [Hse Hen]. apply slice_nonempty; [exact Hse | now rewrite Hlen].
Qed.

Variable all_features : list (list R).
Variables (log_prior : list R) (log_trans means stds : list (list R)).

Lemma score_reps_cons (rep : nat * nat) (reps : list (nat * nat)) :
  score_reps all_features (rep :: reps) log_prior log_trans means stds
  = (ll ← (let seq := Numpy.slice all_features (fst rep) (snd rep + 1) in
           tell (CallViterbi seq) ;;
           decoded ← call (viterbi_loglik seq log_prior log_trans means stds);
           mret (snd decoded));
     lls ← score_reps all_features reps log_prior log_trans means stds;
     mret (ll :: lls)).
Proof. reflexivity. Qed.

Hypothesis some_state : (1 <= length log_prior)%nat.
Hypothesis all_means : (length log_prior <= length means)%nat.
Hypothesis all_stds : (length log_prior <= length stds)%nat.
Hypothesis some_row : log_trans <> [].

(** The scoring loop decodes each slice in turn and returns one
    log-likelihood for each repetition. *)
Lemma score_reps_returns (reps : list (nat * nat)) :
  Forall (fun rep => Numpy.slice all_features (fst rep) (snd rep + 1) <> []) reps ->
  exists rep_loglikes : list R,
    score_reps all_features reps log_prior log_trans means stds
    = Run (map (fun rep => CallViterbi
                             (Numpy.slice all_features (fst rep) (snd rep + 1))) reps)
          (inr rep_loglikes)
    /\ Forall2 (fun rep ll =>
                  exists path,
                    viterbi_loglik (Numpy.slice all_features (fst rep) (snd rep + 1))
                      log_prior log_trans means stds = Some (path, ll))
               reps rep_loglikes.
Proof using some_state all_means all_stds some_row.
  induction 1 as [|rep reps Hrep Hreps IH].
  - exists []. split; [reflexivity | constructor].
  - destruct IH as (lls & Hrun & Hlls).
    destruct (viterbi_loglik_returns _ log_prior log_trans means stds Hrep
                some_state all_means all_stds some_row) as [[path ll] Hdec].
    exists (ll :: lls). rewrite score_reps_cons, Hrun. cbv zeta. rewrite Hdec.
    cbn [call tell mbind M_bind mret M_ret result trace app fst snd].
    rewrite app_nil_r. split; [reflexivity|]. constructor; [eauto | exact Hlls].
Qed.
End PipelineBlocks.

Section PipelineRuns.
Import HMM Segmenter Pipeline.
Local Open Scope R_scope.

Lemma std_population_std (values : list R) :
  Numpy.std values = population_std values.
Proof.
  unfold Numpy.std, population_std, Numpy.mean, Numpy.sum.
  rewrite length_map. do 3 f_equal.
  apply map_ext. intros v. ring.
Qed.

Variables (all_features : list (list R)) (all_states : list Z).
Variables bucket0 bucket1 : list (list R).
Hypothesis usable : usable_corpus all_features all_states bucket0 bucket1.

Lemma usable_corpus_nonempty : all_features <> [].
Proof using usable.
  destruct usable as (_ & _ & Hgroup & Hb0 & _).
  intros ->. cbn in Hgroup. congruence.
Qed.

(** On a usable corpus every helper returns and [main] runs to its last
    statement. *)
Lemma usable_corpus_run :
  exists (means stds trans : list (list R)) (first_state : Z) (prior : list R)
         (events : list event) (reps : list (nat * nat)) (rep_loglikes : list R),
    fit_gaussians [bucket0; bucket1] = Some (means, stds)
    /\ length means = 2%nat /\ length stds = 2%nat
    /\ fit_transitions all_states = Some trans
    /\ all_states !! 0%nat = Some first_state
    /\ fit_prior first_state = Some prior
    /\ detect_reps all_states = Run events (inr reps)
    /\ reps <> []
    /\ score_reps all_features reps (map ln prior) (map (map ln) trans) means stds
       = Run (map (fun rep => CallViterbi
                                (Numpy.slice all_features (fst rep) (snd rep + 1))) reps)
             (inr rep_loglikes)
    /\ Forall2 (fun rep ll =>
                  exists path,
                    viterbi_loglik (Numpy.slice all_features (fst rep) (snd rep + 1))
                      (map ln prior) (map (map ln) trans) means stds = Some (path, ll))
               reps rep_loglikes
    /\ let model := build_model (map ln prior) (map (map ln) trans) means stds
                      rep_loglikes in
       main_after_forward_pass all_features all_states
       = Run ([CallFitGaussians; CallFitTransitions; CallFitPrior]
                ++ events
                ++ map (fun rep => CallViterbi
                                     (Numpy.slice all_features (fst rep) (snd rep + 1)))
                       reps
                ++ [JsonDump model; Printed SavedModel;
                    Printed (RepsDetected (length reps));
                    Printed (MeanStd (meanLogLikelihood model)
                                     (stdLogLikelihood model))])
             (inr tt).
Proof using usable.
  pose proof usable_corpus_nonempty as Hne.
  destruct usable as (Hlen & Hbin & Hgroup & Hb0 & Hb1).
  destruct (fit_gaussians_returns bucket0 bucket1 Hb0 Hb1)
    as (mu0 & mu1 & sd0 & sd1 & Hgauss).
  set (means := [mu0; mu1]) in *.
  assert (Hmeans : length means = 2%nat) by reflexivity.
  destruct (fit_transitions_returns all_states Hbin)
    as (p00 & p01 & p10 & p11 & Htrans).
  destruct (lookup_lt_is_Some_2 all_states 0) as [first_state Hfirst].
  { rewrite <- Hlen. destruct all_features; [congruence | simpl; lia]. }
  destruct (fit_prior_binary first_state) as (p0 & p1 & Hprior).
  { exact (Forall_lookup_1 _ _ _ _ Hbin Hfirst). }
  destruct (detect_reps_spec all_features all_states Hlen Hne)
    as (events & reps & Hreps & Hsome & Hslices).
  destruct (score_reps_returns all_features (map ln [p0; p1])
              (map (map ln) [[p00; p01]; [p10; p11]]) means [sd0; sd1])
    with (reps := reps) as (lls & Hscore & Hlls);
    [simpl; lia | simpl; lia | simpl; lia | discriminate | exact Hslices |].
  exists means, [sd0; sd1], [[p00; p01]; [p10; p11]], first_state, [p0; p1],
    events, reps, lls.
  repeat (split; [first [assumption | reflexivity]|]).
  eapply main_after_forward_pass_run; eassumption.
Qed.
End PipelineRuns.

(** C6: if the corpus is empty after the forward pass, or a label bucket
    holds no feature vector, [main] prints the line that names the
    failing condition and returns: this line is the whole trace of the
    run, so no fitting, decoding or writing step is reached and no model
    is written. *)
Theorem main_insufficient_data (all_features : list (list R)) (all_states : list Z) :
  (all_features = []
   \/ exists features_per_state s,
        Pipeline.group_by_state all_features all_states = Some features_per_state
        /\ features_per_state !! s = Some []) ->
  exists msg : Pipeline.message,
    Pipeline.main_after_forward_pass all_features all_states
    = Pipeline.Run [Pipeline.Printed msg] (inl Pipeline.Returned)
    /\ ((all_features = [] /\ msg = Pipeline.NoUsableFrames)
        \/ (all_features <> []
            /\ exists features_per_state s,
                 Pipeline.group_by_state all_features all_states
                 = Some features_per_state
                 /\ features_per_state !! s = Some []
                 /\ msg = Pipeline.StateHasNoFrames s)).
Proof.
  intros Hcase. destruct all_features as [|feat all_features].
  - exists Pipeline.NoUsableFrames. split; [reflexivity | left; auto].
  - destruct Hcase as [Hnil | (fps & s & Hgroup & Hs)]; [discriminate|].
    pose proof (group_by_state_length _ _ _ Hgroup) as Hlen.
    destruct fps as [|b0 [|b1 [|b2 fps]]]; try discriminate Hlen.
    unfold Pipeline.main_after_forward_pass. rewrite Hgroup.
    cbn [length Nat.eqb NUM_STATES seq Pipeline.for_each Pipeline.call
         lookup list_lookup mbind Pipeline.M_bind mret Pipeline.M_ret
         Pipeline.result Pipeline.trace Pipeline.tell Pipeline.print
         Pipeline.return_ app].
    destruct b0 as [|v0 b0].
    + exists (Pipeline.StateHasNoFrames 0). split; [reflexivity|].
      right. split; [discriminate|]. exists [[]; b1], 0%nat. auto.
    + destruct b1 as [|v1 b1].
      * exists (Pipeline.StateHasNoFrames 1). split; [reflexivity|].
        right. split; [discriminate|]. exists [v0 :: b0; []], 1%nat. auto.
      * exfalso. destruct s as [|[|s]]; cbn in Hs; discriminate.
Qed.

Lemma main_insufficient_data_witness :
  exists msg : Pipeline.message,
    Pipeline.main_after_forward_pass [[1; 2]; [3; 4]]%R [0; 0]%Z
    = Pipeline.Run [Pipeline.Printed msg] (inl Pipeline.Returned)
    /\ (([[1; 2]; [3; 4]]%R = [] /\ msg = Pipeline.NoUsableFrames)
        \/ ([[1; 2]; [3; 4]]%R <> []
            /\ exists features_per_state s,
                 Pipeline.group_by_state [[1; 2]; [3; 4]]%R [0; 0]%Z
                 = Some features_per_state
                 /\ features_per_state !! s = Some []
                 /\ msg = Pipeline.StateHasNoFrames s)).
Proof.
  apply (main_insufficient_data [[1; 2]; [3; 4]]%R [0; 0]%Z).
  right. exists [[[1; 2]; [3; 4]]; []]%R, 1%nat. split; reflexivity.
Defined.

(** The three diagnostics on small corpora. *)
Example main_empty_corpus (all_states : list Z) :
  Pipeline.main_after_forward_pass [] all_states
  = Pipeline.Run [Pipeline.Printed Pipeline.NoUsableFrames] (inl Pipeline.Returned).
Proof. reflexivity. Qed.

Example main_no_up_frames :
  Pipeline.main_after_forward_pass [[1; 2]]%R [1%Z]
  = Pipeline.Run [Pipeline.Printed (Pipeline.StateHasNoFrames 0)]
                 (inl Pipeline.Returned).
Proof. reflexivity. Qed.

Example main_no_down_frames :
  Pipeline.main_after_forward_pass [[1; 2]]%R [0%Z]
  = Pipeline.Run [Pipeline.Printed (Pipeline.StateHasNoFrames 1)]
                 (inl Pipeline.Returned).
Proof. reflexivity. Qed.

(** C7: on a usable corpus of [T] frames on which [segment_reps] finds no
    repetition, [main] does not fail: it prints the fallback line, goes
    on with the single repetition [(0, T - 1)], runs the decoder once, on
    the whole feature sequence, and writes the model. *)
Theorem main_no_reps_fallback (all_features : list (list R)) (all_states : list Z)
    (bucket0 bucket1 : list (list R)) :
  usable_corpus all_features all_states bucket0 bucket1 ->
  Segmenter.segment_reps all_states = [] ->
  exists (means stds trans : list (list R)) (first_state : Z) (prior : list R)
         (path : list nat) (ll : R),
    HMM.fit_gaussians [bucket0; bucket1] = Some (means, stds)
    /\ HMM.fit_transitions all_states = Some trans
    /\ all_states !! 0 = Some first_state
    /\ HMM.fit_prior first_state = Some prior
    /\ Pipeline.detect_reps all_states
       = Pipeline.Run [Pipeline.CallSegmentReps; Pipeline.Printed Pipeline.NoRepsDetected]
                      (inr [(0, length all_features - 1)])
    /\ HMM.viterbi_loglik all_features (map ln prior) (map (map ln) trans) means stds
       = Some (path, ll)
    /\ let model := Pipeline.build_model (map ln prior) (map (map ln) trans)
                      means stds [ll] in
       Pipeline.main_after_forward_pass all_features all_states
       = Pipeline.Run
           [Pipeline.CallFitGaussians; Pipeline.CallFitTransitions;
            Pipeline.CallFitPrior; Pipeline.CallSegmentReps;
            Pipeline.Printed Pipeline.NoRepsDetected;
            Pipeline.CallViterbi all_features;
            Pipeline.JsonDump model;
            Pipeline.Printed Pipeline.SavedModel;
            Pipeline.Printed (Pipeline.RepsDetected 1);
            Pipeline.Printed (Pipeline.MeanStd (Pipeline.meanLogLikelihood model)
                                               (Pipeline.stdLogLikelihood model))]
           (inr tt).
Proof.
  intros Husable Hnone.
  pose proof (usable_corpus_nonempty _ _ _ _ Husable) as Hne.
  destruct (usable_corpus_run _ _ _ _ Husable)
    as (means & stds & trans & first_state & prior & events & reps & lls
        & Hgauss & _ & _ & Htrans & Hfirst & Hprior & Hreps & _ & _ & Hlls & Hrun).
  destruct Husable as (Hlen & _).
  rewrite (detect_reps_fallback _ Hnone) in Hreps.
  injection Hreps as <- <-.
  inversion Hlls as [|rep ll reps' lls' (path & Hdec) Hrest]; subst.
  inversion Hrest; subst. cbn [fst snd] in Hdec.
  rewrite <- Hlen, slice_whole in Hdec by assumption.
  exists means, stds, trans, first_state, prior, path, ll.
  repeat (split; [assumption|]).
  split; [rewrite Hlen; now apply detect_reps_fallback|].
  split; [exact Hdec|].
  cbv zeta in Hrun |- *. rewrite Hrun. cbn [map app length fst snd].
  rewrite <- Hlen, slice_whole by assumption. reflexivity.
Qed.

Lemma main_no_reps_fallback_witness :
  exists (means stds trans : list (list R)) (first_state : Z) (prior : list R)
         (path : list nat) (ll : R),
    HMM.fit_gaussians [[[5]]; [[3]]]%R = Some (means, stds)
    /\ HMM.fit_transitions [1; 0]%Z = Some trans
    /\ [1; 0]%Z !! 0 = Some first_state
    /\ HMM.fit_prior first_state = Some prior
    /\ Pipeline.detect_reps [1; 0]%Z
       = Pipeline.Run [Pipeline.CallSegmentReps; Pipeline.Printed Pipeline.NoRepsDetected]
                      (inr [(0, 1)])
    /\ HMM.viterbi_loglik [[3]; [5]]%R (map ln prior) (map (map ln) trans) means stds
       = Some (path, ll)
    /\ let model := Pipeline.build_model (map ln prior) (map (map ln) trans)
                      means stds [ll] in
       Pipeline.main_after_forward_pass [[3]; [5]]%R [1; 0]%Z
       = Pipeline.Run
           [Pipeline.CallFitGaussians; Pipeline.CallFitTransitions;
            Pipeline.CallFitPrior; Pipeline.CallSegmentReps;
            Pipeline.Printed Pipeline.NoRepsDetected;
            Pipeline.CallViterbi [[3]; [5]]%R;
            Pipeline.JsonDump model;
            Pipeline.Printed Pipeline.SavedModel;
            Pipeline.Printed (Pipeline.RepsDetected 1);
            Pipeline.Printed (Pipeline.MeanStd (Pipeline.meanLogLikelihood model)
                                               (Pipeline.stdLogLikelihood model))]
           (inr tt).
Proof.
  apply (main_no_reps_fallback [[3]; [5]]%R [1; 0]%Z [[5]]%R [[3]]%R).
  - split; [reflexivity|]. split; [repeat (constructor; [auto|]); constructor|].
    split; [reflexivity|]. split; discriminate.
  - vm_compute. reflexivity.
Defined.

(** C8: on a usable corpus [main] writes a model whose
    [stdLogLikelihood] is the population standard deviation of the
    log-likelihoods of the repetitions (decoded with the parameters of
    the model) when there are two or more repetitions, and 1 when there
    are fewer than two. *)
Theorem std_loglikelihood_exported (all_features : list (list R)) (all_states : list Z)
    (bucket0 bucket1 : list (list R)) :
  usable_corpus all_features all_states bucket0 bucket1 ->
  exists (events : list Pipeline.event) (model : Pipeline.ModelParameters)
         (reps : list (nat * nat)) (rep_loglikes : list R),
    Pipeline.main_after_forward_pass all_features all_states
    = Pipeline.Run events (inr tt)
    /\ In (Pipeline.JsonDump model) events
    /\ (exists events_reps, Pipeline.detect_reps all_states
                            = Pipeline.Run events_reps (inr reps))
    /\ Forall2 (fun rep ll =>
                  exists path,
                    HMM.viterbi_loglik
                      (Numpy.slice all_features (fst rep) (snd rep + 1))
                      (Pipeline.logPrior model) (Pipeline.logTrans model)
                      (map Pipeline.means (Pipeline.emissions model))
                      (map Pipeline.stds (Pipeline.emissions model))
                    = Some (path, ll))
               reps rep_loglikes
    /\ (2 <= length reps ->
        Pipeline.stdLogLikelihood model = population_std rep_loglikes)
    /\ (length reps < 2 -> Pipeline.stdLogLikelihood model = 1%R).
Proof.
  intros Husable.
  destruct (usable_corpus_run _ _ _ _ Husable)
    as (means & stds & trans & first_state & prior & events & reps & lls
        & _ & Hmeans & Hstds & _ & _ & _ & Hreps & _ & _ & Hlls & Hrun).
  cbv zeta in Hrun.
  eexists _, (Pipeline.build_model (map ln prior) (map (map ln) trans) means stds lls),
    reps, lls.
  split; [exact Hrun|]. split.
  { cbn [app]. do 3 right. apply in_or_app. right. apply in_or_app. right.
    left. reflexivity. }
  split; [eauto|]. split.
  { destruct means as [|m0 [|m1 [|m2 means]]]; try discriminate Hmeans.
    destruct stds as [|s0 [|s1 [|s2 stds]]]; try discriminate Hstds.
    exact Hlls. }
  pose proof (Forall2_length _ _ _ Hlls) as Hlen.
  unfold Pipeline.build_model. cbn [Pipeline.stdLogLikelihood]. rewrite <- Hlen.
  split; intros Hcount.
  - destruct (1 <? length reps) eqn:Hlt; [apply std_population_std|].
    apply Nat.ltb_ge in Hlt. lia.
  - destruct (1 <? length reps) eqn:Hlt; [|reflexivity].
    apply Nat.ltb_lt in Hlt. lia.
Qed.

Lemma std_loglikelihood_exported_witness :
  exists (events : list Pipeline.event) (model : Pipeline.ModelParameters)
         (reps : list (nat * nat)) (rep_loglikes : list R),
    Pipeline.main_after_forward_pass [[0]; [1]; [0]; [1]; [0]]%R [0; 1; 0; 1; 0]%Z
    = Pipeline.Run events (inr tt)
    /\ In (Pipeline.JsonDump model) events
    /\ (exists events_reps, Pipeline.detect_reps [0; 1; 0; 1; 0]%Z
                            = Pipeline.Run events_reps (inr reps))
    /\ Forall2 (fun rep ll =>
                  exists path,
                    HMM.viterbi_loglik
                      (Numpy.slice [[0]; [1]; [0]; [1]; [0]]%R (fst rep) (snd rep + 1))
                      (Pipeline.logPrior model) (Pipeline.logTrans model)
                      (map Pipeline.means (Pipeline.emissions model))
                      (map Pipeline.stds (Pipeline.emissions model))
                    = Some (path, ll))
               reps rep_loglikes
    /\ (2 <= length reps ->
        Pipeline.stdLogLikelihood model = population_std rep_loglikes)
    /\ (length reps < 2 -> Pipeline.stdLogLikelihood model = 1%R).
Proof.
  apply (std_loglikelihood_exported [[0]; [1]; [0]; [1]; [0]]%R [0; 1; 0; 1; 0]%Z
           [[0]; [0]; [0]]%R [[1]; [1]]%R).
  split; [reflexivity|]. split; [repeat (constructor; [auto|]); constructor|].
  split; [reflexivity|]. split; discriminate.
Defined.

(** The repetitions of the corpus of the witness: two, sharing frame 2. *)
Example detect_reps_two :
  Pipeline.detect_reps [0; 1; 0; 1; 0]%Z
  = Pipeline.Run [Pipeline.CallSegmentReps] (inr [(0, 2); (2, 4)]).
Proof. vm_compute. reflexivity. Qed.

(** ** The forward pass *)

Lemma knee_state_binary (lms : Features.landmarks) :
  (Features.knee_state lms = 0 \/ Features.knee_state lms = 1)%Z.
Proof.
  unfold Features.knee_state, Features.knee_state_with. cbv zeta.
  destruct (Rge_dec _ _); [auto|].
  destruct (Rle_dec _ _); [auto|].
  destruct (Rge_dec _ _); auto.
Qed.

(** The frame loop gives one 0/1 label for each feature vector, and every
    feature vector has [NUM_FEATURES] components. *)
Lemma forward_pass_spec (frames : list (option Features.landmarks)) :
  length (fst (Pipeline.forward_pass frames)) = length (snd (Pipeline.forward_pass frames))
  /\ Forall (fun v => v = 0%Z \/ v = 1%Z) (snd (Pipeline.forward_pass frames))
  /\ Forall (fun feat => length feat = NUM_FEATURES) (fst (Pipeline.forward_pass frames)).
Proof.
  unfold Pipeline.forward_pass.
  assert (Hinit : length (fst ([] : list (list R), [] : list Z))
                  = length (snd ([] : list (list R), [] : list Z))
                  /\ Forall (fun v => v = 0%Z \/ v = 1%Z)
                            (snd ([] : list (list R), [] : list Z))
                  /\ Forall (fun feat => length feat = NUM_FEATURES)
                            (fst ([] : list (list R), [] : list Z)))
    by (repeat split; constructor).
  revert Hinit. generalize ([] : list (list R), [] : list Z).
  induction frames as [|frame frames IH]; intros acc Hacc; [exact Hacc|].
  cbn [foldl]. apply IH. destruct frame as [lms|]; [|exact Hacc].
  destruct (Features.extract_feature_vector lms) as [feat|] eqn:Hfeat; [|exact Hacc].
  destruct Hacc as (Hlen & Hbin & Hdim). cbn [fst snd]. repeat split.
  - rewrite !length_app, Hlen. reflexivity.
  - apply Forall_app. split; [exact Hbin|].
    constructor; [apply knee_state_binary | constructor].
  - apply Forall_app. split; [exact Hdim|]. constructor; [|constructor].
    unfold Features.extract_feature_vector in Hfeat.
    destruct (mapM _ _) as [pts|]; [|discriminate].
    cbn [mbind option_bind] in Hfeat.
    destruct pts as [|? [|? [|? [|? [|? [|? [|? [|? [|? ?]]]]]]]]]; try discriminate.
    match type of Hfeat with
    | context [if ?c then _ else _] => destruct c
    end; cbn [mbind option_bind] in Hfeat.
    + match type of Hfeat with
      | context [if ?c then _ else _] => destruct c
      end; cbn [mbind option_bind] in Hfeat; [discriminate|].
      injection Hfeat as <-. reflexivity.
    + injection Hfeat as <-. reflexivity.
Qed.

(** With the video open, [main] is the forward pass followed by the rest
    of the pipeline on the corpus it has built. *)
Lemma main_opened (frames : list (option Features.landmarks)) :
  Pipeline.main true frames
  = Pipeline.main_after_forward_pass (fst (Pipeline.forward_pass frames))
                                     (snd (Pipeline.forward_pass frames)).
Proof.
  unfold Pipeline.main.
  cbn [negb mbind Pipeline.M_bind mret Pipeline.M_ret Pipeline.result Pipeline.trace app].
  destruct (Pipeline.main_after_forward_pass _ _). reflexivity.
Qed.

(** With the video not open, [main] prints the error and returns. *)
Lemma main_not_opened (frames : list (option Features.landmarks)) :
  Pipeline.main false frames
  = Pipeline.Run [Pipeline.Printed Pipeline.CannotOpenVideo] (inl Pipeline.Returned).
Proof. reflexivity. Qed.

(** * Further properties of the trainer *)

(** ** Rep Segmenter: what a repetition is *)

(** A cursor loop has only passed positions where its condition holds. *)
Lemma while_cursor_passed (c : nat -> bool) (fuel i j : nat) :
  i <= j < while_loop c S fuel i -> c j = true.
Proof.
  revert i. induction fuel as [|fuel IH]; intros i Hj; simpl in Hj; [lia|].
  destruct (c i) eqn:Hc; [|lia].
  destruct (Nat.eq_dec i j) as [-> | Hne]; [exact Hc|].
  apply (IH (S i)). lia.
Qed.

Section SegmenterCycles.
Import Segmenter.
Variable frame_states : list Z.
Local Abbreviation n := (length frame_states).

Lemma find_down_run (i j : nat) :
  i <= j < find_down frame_states i -> item frame_states j = 0%Z.
Proof.
  intros Hj. apply while_cursor_passed in Hj.
  apply andb_true_iff in Hj as [_ Hj]. now apply Z.eqb_eq in Hj.
Qed.

Lemma in_down_run (i j : nat) :
  i <= j < snd (in_down frame_states i) -> item frame_states j = 1%Z.
Proof.
  unfold in_down.
  rewrite (while_flagged (fun i => (i <? n) && (item frame_states i =? 1)%Z)).
  cbn [snd]. intros Hj. apply while_cursor_passed in Hj.
  apply andb_true_iff in Hj as [_ Hj]. now apply Z.eqb_eq in Hj.
Qed.

Lemma in_down_stop (i : nat) :
  snd (in_down frame_states i) < n ->
  item frame_states (snd (in_down frame_states i)) <> 1%Z.
Proof.
  unfold in_down.
  set (c := fun i => (i <? n) && (item frame_states i =? 1)%Z).
  rewrite (while_flagged c). cbn [snd]. intros Hlt.
  destruct (while_cursor c n) with (fuel := n) (i := i) as (_ & Hout & _).
  - intros j Hj. apply andb_true_iff in Hj as [Hj _]. now apply Nat.ltb_lt in Hj.
  - lia.
  - subst c. cbv beta in Hout. apply Nat.ltb_lt in Hlt. rewrite Hlt in Hout.
    now apply Z.eqb_neq in Hout.
Qed.

(** The outer loop only adds cycles. *)
Lemma segment_loop_cycles (fuel i : nat) (reps : list (nat * nat)) :
  Forall (cycle_shape frame_states) reps ->
  Forall (cycle_shape frame_states) (fst (segment_loop frame_states fuel i reps)).
Proof.
  revert i reps. induction fuel as [|fuel IH]; intros i reps Hreps; [exact Hreps|].
  cbn [segment_loop].
  destruct (negb (i <? n - 1)); [exact Hreps|].
  set (i1 := find_up frame_states i).
  destruct (n - 1 <=? i1) eqn:H1; [exact Hreps|]. apply Nat.leb_gt in H1.
  destruct (find_up_spec frame_states i) as (_ & Hup0). fold i1 in Hup0.
  destruct (find_down_spec frame_states i1) as (_ & _ & Hdn1).
  pose proof (find_down_run i1) as Hrun0.
  set (i2 := find_down frame_states i1) in *.
  destruct (n <=? i2) eqn:H2; [exact Hreps|]. apply Nat.leb_gt in H2.
  destruct (in_down_spec frame_states i2) as (_ & _ & Hin1).
  pose proof (in_down_run i2) as Hrun1. pose proof (in_down_stop i2) as Hstop.
  destruct (in_down frame_states i2) as [saw_down i3]. cbn [fst snd] in *.
  destruct saw_down; cbn [negb]; [|exact Hreps].
  destruct (n <=? i3) eqn:H3; [exact Hreps|]. apply Nat.leb_gt in H3.
  apply IH. apply Forall_app. split; [exact Hreps|].
  constructor; [|constructor]. exists i2. cbn [fst snd].
  repeat split; [apply Hdn1; [lia | apply Hup0; lia] | auto | lia | auto | auto | auto].
Qed.

End SegmenterCycles.

(** Intervals in order, each at least two long, between [lo] and [hi]. *)
Lemma in_order_count (reps : list (nat * nat)) :
  in_order reps ->
  Forall (fun r => fst r + 2 <= snd r) reps ->
  forall lo hi : nat,
    (forall r, head reps = Some r -> lo <= fst r) ->
    Forall (fun r => snd r <= hi) reps ->
    reps = [] \/ lo + 2 * length reps <= hi.
Proof.
  unfold in_order. induction 1 as [|r reps Hs IH Hhd]; intros Hlen lo hi Hlo Hhi.
  - left. reflexivity.
  - right. inversion Hlen as [|? ? Hr Hrest]; subst.
    inversion Hhi as [|? ? Hrhi Hresthi]; subst.
    specialize (Hlo r eq_refl).
    destruct (IH Hrest (snd r) hi) as [-> | Hcount]; [|exact Hresthi|..].
    + intros r' Hr'. destruct Hhd as [|r0 reps0 Hr0]; [discriminate|].
      cbn in Hr'. injection Hr' as <-. exact Hr0.
    + simpl. lia.
    + simpl in *. lia.
Qed.

(** X1: every repetition [(start, end)] that [segment_reps] returns is a
    cycle of the labels: a non-empty run of 0 from [start], then a
    non-empty run of 1 up to [end], and at [end], inside the sequence, a
    label other than 1. *)
Theorem segment_reps_cycle_shape (frame_states : list Z) :
  Forall (cycle_shape frame_states) (Segmenter.segment_reps frame_states).
Proof.
  unfold Segmenter.segment_reps, Segmenter.segment_run.
  apply segment_loop_cycles. constructor.
Qed.

(** X2: a sequence of [n] labels has at most [(n - 1) / 2] repetitions:
    each takes at least two frames before its end, and the last end is a
    frame of the sequence. *)
Theorem segment_reps_count (frame_states : list Z) :
  2 * length (Segmenter.segment_reps frame_states) <= length frame_states - 1.
Proof.
  destruct (segment_run_spec frame_states) as (_ & _ & Hord).
  pose proof (segment_loop_cycles frame_states (S (length frame_states)) 0 []
                (Forall_nil_2 _)) as Hcyc.
  change (fst (Segmenter.segment_loop frame_states (S (length frame_states)) 0 []))
    with (Segmenter.segment_reps frame_states) in Hcyc.
  destruct (in_order_count _ Hord) with (lo := 0) (hi := length frame_states - 1)
    as [-> | Hcount].
  - eapply Forall_impl; [exact Hcyc|]. intros r (m & ? & ? & _). lia.
  - intros r _. lia.
  - eapply Forall_impl; [exact Hcyc|]. intros r (m & ? & ? & ? & _). lia.
  - simpl. lia.
  - lia.
Qed.

(** X3: a label sequence without a 0, or without a 1, has no
    repetition. *)
Theorem segment_reps_needs_both_labels (frame_states : list Z) :
  ~ In 0%Z frame_states \/ ~ In 1%Z frame_states ->
  Segmenter.segment_reps frame_states = [].
Proof.
  intros Hmissing.
  pose proof (segment_loop_cycles frame_states (S (length frame_states)) 0 []
                (Forall_nil_2 _)) as Hcyc.
  change (fst (Segmenter.segment_loop frame_states (S (length frame_states)) 0 []))
    with (Segmenter.segment_reps frame_states) in Hcyc.
  destruct (Segmenter.segment_reps frame_states) as [|r reps]; [reflexivity|].
  exfalso. inversion Hcyc as [|? ? (m & Hsm & Hme & Hen & Hup & Hdown & _) _]; subst.
  destruct Hmissing as [Hno | Hno]; apply Hno.
  - rewrite <- (Hup (fst r)) by lia. apply nth_In. lia.
  - rewrite <- (Hdown m) by lia. apply nth_In. lia.
Qed.

Lemma segment_reps_needs_both_labels_witness :
  Segmenter.segment_reps [0; 0; 2; 0; 0]%Z = [].
Proof.
  apply segment_reps_needs_both_labels. right.
  intros Hin. repeat (destruct Hin as [Hin | Hin]; [discriminate|]). exact Hin.
Defined.

(** ** Prior Fitter *)

(** X4: for a first label 0 or 1 [fit_prior] returns two positive
    probabilities that sum to 1; the one of the first label is above
    0.999998 and the other below 1e-6. *)
Theorem fit_prior_normalized (first_state : Z) :
  (first_state = 0 \/ first_state = 1)%Z ->
  exists p0 p1 : R,
    HMM.fit_prior first_state = Some [p0; p1]
    /\ (p0 + p1 = 1 /\ 0 < p0 /\ 0 < p1)%R
    /\ (0.999998 < nth (Z.to_nat first_state) [p0; p1] 0)%R
    /\ (nth (Z.to_nat (1 - first_state)) [p0; p1] 0 < 1e-6)%R.
Proof.
  assert (Hhi : (0.999998 < 1 / (1 + (1e-6 + 0)) /\ 0 < 1 / (1 + (1e-6 + 0)))%R)
    by lra.
  assert (Hlo : (1e-6 / (1 + (1e-6 + 0)) < 1e-6 /\ 0 < 1e-6 / (1 + (1e-6 + 0)))%R)
    by lra.
  assert (Hsum : (1 / (1 + (1e-6 + 0)) + 1e-6 / (1 + (1e-6 + 0)) = 1)%R)
    by (field; lra).
  intros [-> | ->].
  - exists (1 / (1 + (1e-6 + 0)))%R, (1e-6 / (1 + (1e-6 + 0)))%R.
    split; [reflexivity|].
    change (Z.to_nat 0) with 0%nat. change (Z.to_nat (1 - 0)) with 1%nat.
    cbn [nth]. repeat split; lra.
  - exists (1e-6 / (1e-6 + (1 + 0)))%R, (1 / (1e-6 + (1 + 0)))%R.
    split; [reflexivity|].
    replace (1e-6 + (1 + 0))%R with (1 + (1e-6 + 0))%R by ring.
    change (Z.to_nat 1) with 1%nat. change (Z.to_nat (1 - 1)) with 0%nat.
    cbn [nth]. repeat split; lra.
Qed.

Lemma fit_prior_normalized_witness :
  exists p0 p1 : R,
    HMM.fit_prior 1 = Some [p0; p1]
    /\ (p0 + p1 = 1 /\ 0 < p0 /\ 0 < p1)%R
    /\ (0.999998 < nth (Z.to_nat 1) [p0; p1] 0)%R
    /\ (nth (Z.to_nat (1 - 1)) [p0; p1] 0 < 1e-6)%R.
Proof. apply (fit_prior_normalized 1). right. reflexivity. Defined.

(** X5: [fit_prior] raises exactly on a first label outside [-2, 2): a
    negative label counts from the end, as any index does. *)
Theorem fit_prior_index_error (first_state : Z) :
  HMM.fit_prior first_state = None <-> (first_state < -2 \/ 2 <= first_state)%Z.
Proof.
  unfold HMM.fit_prior, Numpy.set_item, Numpy.py_index.
  change (Z.of_nat (length (replicate NUM_STATES 1e-6%R))) with 2%Z.
  destruct ((0 <=? first_state) && (first_state <? 2))%Z eqn:Hin.
  - apply andb_true_iff in Hin as [Hlo Hhi].
    apply Z.leb_le in Hlo. apply Z.ltb_lt in Hhi.
    cbn [mbind option_bind]. split; [intros H; discriminate H | lia].
  - destruct ((Z.opp 2 <=? first_state) && (first_state <? 0))%Z eqn:Hneg.
    + apply andb_true_iff in Hneg as [Hlo Hhi].
      apply Z.leb_le in Hlo. apply Z.ltb_lt in Hhi.
      cbn [mbind option_bind]. split; [intros H; discriminate H | lia].
    + cbn [mbind option_bind]. split; [intros _ | reflexivity].
      apply andb_false_iff in Hin. apply andb_false_iff in Hneg.
      rewrite Z.leb_gt, Z.ltb_ge in Hin, Hneg. lia.
Qed.

(** ** Emission Fitter *)


Section ConstantBucket.
Local Open Scope R_scope.

Lemma sum_replicate (m : nat) (c : R) : Numpy.sum (replicate m c) = INR m * c.
Proof.
  induction m as [|m IH]; [simpl; ring|].
  cbn [replicate]. unfold Numpy.sum in *. cbn [foldr]. rewrite IH, S_INR. ring.
Qed.

Lemma mean_replicate (k : nat) (c : R) : Numpy.mean (replicate (S k) c) = c.
Proof.
  unfold Numpy.mean. rewrite sum_replicate, length_replicate.
  field. apply not_0_INR. discriminate.
Qed.

Lemma map_replicate {A B : Type} (f : A -> B) (m : nat) (a : A) :
  map f (replicate m a) = replicate m (f a).
Proof. induction m as [|m IH]; [reflexivity|]. simpl. now rewrite IH. Qed.

Lemma std_replicate (k : nat) (c : R) : Numpy.std (replicate (S k) c) = 0.
Proof.
  unfold Numpy.std. rewrite mean_replicate, map_replicate, mean_replicate.
  replace ((c - c) * (c - c)) with 0 by ring. apply sqrt_0.
Qed.

Lemma map_nth_seq (v : list R) : map (fun d => nth d v 0) (seq 0 (length v)) = v.
Proof.
  induction v as [|a v IH]; [reflexivity|].
  cbn [length seq map nth]. f_equal.
  rewrite <- seq_shift, map_map. exact IH.
Qed.

(** A bucket of equal vectors: the mean is the vector, and every
    standard deviation, 0 before the floor, is 1e-6. *)
Lemma fit_gaussian_constant (k : nat) (v : list R) :
  HMM.fit_gaussian (replicate (S k) v) = Some (v, map (fun _ => 1e-6) v).
Proof.
  unfold HMM.fit_gaussian. cbn [replicate]. f_equal. f_equal.
  - rewrite <- (map_nth_seq v) at 2. apply map_ext. intros d.
    unfold Numpy.column.
    change (v :: replicate k v) with (replicate (S k) v).
    now rewrite map_replicate, mean_replicate.
  - rewrite map_map. rewrite <- (map_nth_seq v) at 2. rewrite map_map.
    apply map_ext. intros d. unfold Numpy.column.
    change (v :: replicate k v) with (replicate (S k) v).
    rewrite map_replicate, std_replicate.
    destruct (Rlt_dec 0 1e-6); [reflexivity | lra].
Qed.
End ConstantBucket.

(** X7: when each bucket holds copies of one vector (a single vector
    among them), [fit_gaussians] returns that vector as the mean and 1e-6
    as every standard deviation: the zero deviation is floored. *)
Theorem fit_gaussians_constant_buckets (k0 k1 : nat) (v0 v1 : list R) :
  HMM.fit_gaussians [replicate (S k0) v0; replicate (S k1) v1]
  = Some ([v0; v1], [map (fun _ => 1e-6%R) v0; map (fun _ => 1e-6%R) v1]).
Proof.
  unfold HMM.fit_gaussians.
  cbn [NUM_STATES seq mapM lookup list_lookup mbind option_bind].
  rewrite !fit_gaussian_constant. reflexivity.
Qed.

(** ** Transition Fitter: the counts *)

Section TransitionCounts.
Local Open Scope R_scope.

(** The counting loop on [x :: rest] from index 1 is the counting loop on
    [rest] from index 0. *)
Lemma count_loop_shift (x : Z) (rest : list Z) (m : nat)
    (counts : option (list (list R))) :
  foldl (fun counts i =>
           counts ← counts;
           a ← (x :: rest) !! i;
           b ← (x :: rest) !! (i + 1)%nat;
           Numpy.add_item2 counts a b 1)
        counts (seq 1 m)
  = foldl (fun counts i =>
             counts ← counts;
             a ← rest !! i;
             b ← rest !! (i + 1)%nat;
             Numpy.add_item2 counts a b 1)
          counts (seq 0 m).
Proof.
  rewrite <- seq_shift. generalize (seq 0 m). intros indices. revert counts.
  induction indices as [|i indices IH]; intros counts; [reflexivity|].
  cbn [map foldl]. rewrite IH. reflexivity.
Qed.

Lemma count_transitions_cons2 (a b x y : Z) (rest : list Z) :
  count_transitions a b (x :: y :: rest)
  = ((if ((x =? a) && (y =? b))%Z then 1 else 0)
     + count_transitions a b (y :: rest))%nat.
Proof. reflexivity. Qed.

Lemma count_loop_counts (state_seq : list Z) :
  Forall (fun v => v = 0%Z \/ v = 1%Z) state_seq ->
  forall c00 c01 c10 c11 : R,
  exists n00 n01 n10 n11 : R,
    foldl (fun counts i =>
             counts ← counts;
             a ← state_seq !! i;
             b ← state_seq !! (i + 1)%nat;
             Numpy.add_item2 counts a b 1)
          (Some [[c00; c01]; [c10; c11]]) (seq 0 (length state_seq - 1))
    = Some [[n00; n01]; [n10; n11]]
    /\ n00 = c00 + INR (count_transitions 0 0 state_seq)
    /\ n01 = c01 + INR (count_transitions 0 1 state_seq)
    /\ n10 = c10 + INR (count_transitions 1 0 state_seq)
    /\ n11 = c11 + INR (count_transitions 1 1 state_seq).
Proof.
  induction 1 as [|x rest Hx Hrest IH]; intros c00 c01 c10 c11.
  - exists c00, c01, c10, c11. cbn. repeat split; lra.
  - destruct rest as [|y rest].
    + exists c00, c01, c10, c11. cbn. repeat split; lra.
    + replace (length (x :: y :: rest) - 1)%nat with (S (length (y :: rest) - 1))
        by (simpl; lia).
      cbn [seq foldl]. rewrite count_loop_shift.
      inversion Hrest as [|? ? Hy _]; subst.
      rewrite !(count_transitions_cons2 _ _ x y rest).
      cbn [mbind option_bind lookup list_lookup Nat.add].
      destruct Hx as [-> | ->], Hy as [-> | ->].
      * change (Numpy.add_item2 [[c00; c01]; [c10; c11]] 0 0 1)
          with (Some [[c00 + 1; c01]; [c10; c11]]).
        destruct (IH (c00 + 1) c01 c10 c11)
          as (n00 & n01 & n10 & n11 & Hfold & -> & -> & -> & ->).
        rewrite Hfold. do 4 eexists. split; [reflexivity|].
        cbn [Z.eqb Pos.eqb andb]. rewrite ?plus_INR. cbn [INR]. repeat split; ring.
      * change (Numpy.add_item2 [[c00; c01]; [c10; c11]] 0 1 1)
          with (Some [[c00; c01 + 1]; [c10; c11]]).
        destruct (IH c00 (c01 + 1) c10 c11)
          as (n00 & n01 & n10 & n11 & Hfold & -> & -> & -> & ->).
        rewrite Hfold. do 4 eexists. split; [reflexivity|].
        cbn [Z.eqb Pos.eqb andb]. rewrite ?plus_INR. cbn [INR]. repeat split; ring.
      * change (Numpy.add_item2 [[c00; c01]; [c10; c11]] 1 0 1)
          with (Some [[c00; c01]; [c10 + 1; c11]]).
        destruct (IH c00 c01 (c10 + 1) c11)
          as (n00 & n01 & n10 & n11 & Hfold & -> & -> & -> & ->).
        rewrite Hfold. do 4 eexists. split; [reflexivity|].
        cbn [Z.eqb Pos.eqb andb]. rewrite ?plus_INR. cbn [INR]. repeat split; ring.
      * change (Numpy.add_item2 [[c00; c01]; [c10; c11]] 1 1 1)
          with (Some [[c00; c01]; [c10; c11 + 1]]).
        destruct (IH c00 c01 c10 (c11 + 1))
          as (n00 & n01 & n10 & n11 & Hfold & -> & -> & -> & ->).
        rewrite Hfold. do 4 eexists. split; [reflexivity|].
        cbn [Z.eqb Pos.eqb andb]. rewrite ?plus_INR. cbn [INR]. repeat split; ring.
Qed.
End TransitionCounts.

(** X8: on 0/1 labels the entry [(a, b)] of the matrix [fit_transitions]
    returns is [(1 + N_ab) / (2 + N_a0 + N_a1)], with [N_ab] the number
    of consecutive pairs [(a, b)] in the sequence. *)
Theorem fit_transitions_formula (state_seq : list Z) :
  Forall (fun v => v = 0%Z \/ v = 1%Z) state_seq ->
  let n00 := INR (count_transitions 0 0 state_seq) in
  let n01 := INR (count_transitions 0 1 state_seq) in
  let n10 := INR (count_transitions 1 0 state_seq) in
  let n11 := INR (count_transitions 1 1 state_seq) in
  HMM.fit_transitions state_seq
  = Some [[(1 + n00) / (2 + n00 + n01); (1 + n01) / (2 + n00 + n01)];
          [(1 + n10) / (2 + n10 + n11); (1 + n11) / (2 + n10 + n11)]]%R.
Proof.
  intros binary n00 n01 n10 n11. unfold HMM.fit_transitions.
  destruct (count_loop_counts state_seq binary 1 1 1 1)
    as (c00 & c01 & c10 & c11 & Hfold & -> & -> & -> & ->).
  cbn [NUM_STATES replicate]. rewrite Hfold. cbn [mbind option_bind].
  unfold HMM.normalize_rows, Numpy.sum. cbn [map foldr].
  fold n00 n01 n10 n11.
  assert (H0 : (1 + n00 + (1 + n01 + 0) = 2 + n00 + n01)%R) by ring.
  assert (H1 : (1 + n10 + (1 + n11 + 0) = 2 + n10 + n11)%R) by ring.
  rewrite H0, H1. reflexivity.
Qed.

Lemma fit_transitions_formula_witness :
  let n00 := INR (count_transitions 0 0 [0; 1; 1; 0; 1]%Z) in
  let n01 := INR (count_transitions 0 1 [0; 1; 1; 0; 1]%Z) in
  let n10 := INR (count_transitions 1 0 [0; 1; 1; 0; 1]%Z) in
  let n11 := INR (count_transitions 1 1 [0; 1; 1; 0; 1]%Z) in
  HMM.fit_transitions [0; 1; 1; 0; 1]%Z
  = Some [[(1 + n00) / (2 + n00 + n01); (1 + n01) / (2 + n00 + n01)];
          [(1 + n10) / (2 + n10 + n11); (1 + n11) / (2 + n10 + n11)]]%R.
Proof.
  apply (fit_transitions_formula [0; 1; 1; 0; 1]%Z).
  repeat (constructor; [auto|]); constructor.
Defined.

(** ** Geometry and the Frame Labeler *)

Section AngleFacts.
Import Features.
Local Open Scope R_scope.

(** [angle] depends on its points only through the two vectors from [b]. *)
Lemma angle_vectors (a b c a' b' c' : point) :
  fst a' - fst b' = fst a - fst b -> snd a' - snd b' = snd a - snd b ->
  fst c' - fst b' = fst c - fst b -> snd c' - snd b' = snd c - snd b ->
  angle a' b' c' = angle a b c.
Proof.
  intros Hax Hay Hcx Hcy. unfold angle. cbn [fst snd].
  rewrite Hax, Hay, Hcx, Hcy. reflexivity.
Qed.

Lemma hypot_zero : hypot 0 0 = 0.
Proof. unfold hypot. replace (0 * 0 + 0 * 0) with 0 by ring. apply sqrt_0. Qed.

Lemma hypot_sqr (u v : R) : hypot u v * hypot u v = u * u + v * v.
Proof. unfold hypot. apply sqrt_sqrt. nra. Qed.
End AngleFacts.

(** X9: [angle] is between 0 and 180 degrees. *)
Theorem angle_range (a b c : Features.point) :
  (0 <= Features.angle a b c <= 180)%R.
Proof.
  unfold Features.angle. cbv zeta.
  destruct (Rlt_dec _ _); [lra|]. destruct (Rlt_dec _ _); [lra|].
  match goal with |- (0 <= acos ?d * _ <= _)%R => pose proof (acos_bound d) as Hb end.
  pose proof PI_RGT_0 as Hpi.
  assert (Hk : (0 < 180 / PI)%R) by (apply Rdiv_lt_0_compat; lra).
  split; [apply Rmult_le_pos; lra|].
  replace 180%R with (PI * (180 / PI))%R at 2 by (field; lra).
  apply Rmult_le_compat_r; lra.
Qed.

(** X10: the angle at [b] is the same read from either side. *)
Theorem angle_symmetric (a b c : Features.point) :
  Features.angle a b c = Features.angle c b a.
Proof.
  unfold Features.angle. cbv zeta. cbn [fst snd].
  destruct (Rlt_dec (Features.hypot (fst a - fst b) (snd a - snd b)) 1e-6),
           (Rlt_dec (Features.hypot (fst c - fst b) (snd c - snd b)) 1e-6);
    try reflexivity.
  match goal with
  | |- (acos (if Rlt_dec ?d1 _ then _ else _) * _
        = acos (if Rlt_dec ?d2 _ then _ else _) * _)%R =>
      replace d1 with d2 by (unfold Rdiv; ring)
  end.
  reflexivity.
Qed.

Section AngleCosine.
Import Features.
Local Open Scope R_scope.

Lemma unit_vector (u v : R) :
  0 < hypot u v ->
  (u / hypot u v) * (u / hypot u v) + (v / hypot u v) * (v / hypot u v) = 1.
Proof.
  intros Hpos. pose proof (hypot_sqr u v) as Hsq.
  replace (u / hypot u v * (u / hypot u v) + v / hypot u v * (v / hypot u v))
    with ((u * u + v * v) / (hypot u v * hypot u v)) by (field; lra).
  rewrite <- Hsq. field. lra.
Qed.

(** The dot product of two unit vectors is between -1 and 1. *)
Lemma unit_dot_bound (u1 w1 u2 w2 : R) :
  u1 * u1 + w1 * w1 = 1 -> u2 * u2 + w2 * w2 = 1 ->
  -1 <= u1 * u2 + w1 * w2 <= 1.
Proof.
  intros H1 H2.
  pose proof (Rle_0_sqr (u1 - u2)). pose proof (Rle_0_sqr (w1 - w2)).
  pose proof (Rle_0_sqr (u1 + u2)). pose proof (Rle_0_sqr (w1 + w2)).
  unfold Rsqr in *. split; nra.
Qed.
End AngleCosine.

(** X11: when both segments at [b] are at least 1e-6 long, [angle] is the
    angle between them: its cosine is their dot product over the product
    of their lengths (the clipping to [-1, 1] never changes the value). *)
Theorem angle_cosine (a b c : Features.point) :
  let v1 := (fst a - fst b, snd a - snd b)%R in
  let v2 := (fst c - fst b, snd c - snd b)%R in
  (1e-6 <= Features.hypot (fst v1) (snd v1))%R ->
  (1e-6 <= Features.hypot (fst v2) (snd v2))%R ->
  cos (Features.angle a b c * (PI / 180))
  = ((fst v1 * fst v2 + snd v1 * snd v2)
     / (Features.hypot (fst v1) (snd v1) * Features.hypot (fst v2) (snd v2)))%R.
Proof.
  intros v1 v2 H1 H2. unfold Features.angle. cbv zeta.
  subst v1 v2. cbn [fst snd] in *.
  set (n1 := Features.hypot (fst a - fst b) (snd a - snd b)) in *.
  set (n2 := Features.hypot (fst c - fst b) (snd c - snd b)) in *.
  destruct (Rlt_dec n1 1e-6); [lra|]. destruct (Rlt_dec n2 1e-6); [lra|].
  pose proof (unit_dot_bound _ _ _ _
                (unit_vector (fst a - fst b) (snd a - snd b) ltac:(fold n1; lra))
                (unit_vector (fst c - fst b) (snd c - snd b) ltac:(fold n2; lra)))
    as Hd.
  fold n1 n2 in Hd.
  destruct (Rlt_dec _ (-1)); [lra|]. destruct (Rlt_dec 1 _); [lra|].
  pose proof PI_RGT_0 as Hpi.
  match goal with
  | |- cos (acos ?d * _ * _) = _ =>
      replace (acos d * (180 / PI) * (PI / 180))%R with (acos d) by (field; lra);
      rewrite (cos_acos d Hd)
  end.
  field. lra.
Qed.

Lemma angle_cosine_witness :
  cos (Features.angle (0, 1)%R (0, 0)%R (1, 0)%R * (PI / 180))
  = (((0 - 0) * (1 - 0) + (1 - 0) * (0 - 0))
     / (Features.hypot (0 - 0) (1 - 0) * Features.hypot (1 - 0) (0 - 0)))%R.
Proof.
  assert (H10 : Features.hypot (0 - 0) (1 - 0) = 1%R).
  { unfold Features.hypot.
    replace ((0 - 0) * (0 - 0) + (1 - 0) * (1 - 0))%R with (1 * 1)%R by ring.
    apply sqrt_square. lra. }
  assert (H01 : Features.hypot (1 - 0) (0 - 0) = 1%R).
  { unfold Features.hypot.
    replace ((1 - 0) * (1 - 0) + (0 - 0) * (0 - 0))%R with (1 * 1)%R by ring.
    apply sqrt_square. lra. }
  apply (angle_cosine (0, 1)%R (0, 0)%R (1, 0)%R); cbn [fst snd];
    [rewrite H10 | rewrite H01]; lra.
Defined.

(** X12: when [b] coincides with [a] or with [c], [angle] is 180. *)
Theorem angle_coincident (a c : Features.point) :
  Features.angle a a c = 180%R /\ Features.angle a c c = 180%R.
Proof.
  unfold Features.angle. cbv zeta. cbn [fst snd].
  replace (fst a - fst a)%R with 0%R by ring.
  replace (snd a - snd a)%R with 0%R by ring.
  replace (fst c - fst c)%R with 0%R by ring.
  replace (snd c - snd c)%R with 0%R by ring.
  rewrite hypot_zero. split.
  - destruct (Rlt_dec 0 1e-6); [reflexivity | lra].
  - destruct (Rlt_dec _ 1e-6); [reflexivity|].
    destruct (Rlt_dec 0 1e-6); [reflexivity | lra].
Qed.

(** X13: with its default thresholds [knee_state] is a single cut at
    the midpoint: the label is 0 when the average knee angle is at least
    135 degrees and 1 otherwise. *)
Theorem knee_state_midpoint (lms : Features.landmarks) :
  Features.knee_state lms = if Rle_dec 135 (knee_angle lms) then 0%Z else 1%Z.
Proof.
  unfold Features.knee_state, Features.knee_state_with, knee_angle. cbv zeta.
  set (ang := (0.5 * (_ + _))%R).
  destruct (Rle_dec 135 ang), (Rge_dec ang 150); try reflexivity; try lra.
  - destruct (Rle_dec ang 120); [lra|].
    destruct (Rge_dec ang (0.5 * (150 + 120))); [reflexivity | lra].
  - destruct (Rle_dec ang 120); [reflexivity|].
    destruct (Rge_dec ang (0.5 * (150 + 120))); [lra | reflexivity].
Qed.

Lemma angle_translated (ax ay bx by_ cx cy tx ty : R) :
  Features.angle (1 * ax + tx, 1 * ay + ty)%R (1 * bx + tx, 1 * by_ + ty)%R
                 (1 * cx + tx, 1 * cy + ty)%R
  = Features.angle (ax, ay) (bx, by_) (cx, cy).
Proof. apply angle_vectors; cbn [fst snd]; ring. Qed.

(** X14: the label of a frame does not change when every joint is moved
    by the same vector. *)
Theorem knee_state_translation_invariant (lms : Features.landmarks) (tx ty : R) :
  Features.knee_state (transform 1 tx ty lms) = Features.knee_state lms.
Proof.
  unfold Features.knee_state, Features.knee_state_with. cbv zeta.
  unfold transform. cbn [Features.x Features.y].
  rewrite !angle_translated. reflexivity.
Qed.

(** ** Feature Normalizer: failures and the normalised frame *)

Section NormalizerEdges.
Import Features.
Local Open Scope R_scope.

Lemma extract_invisible (lms : landmarks) (lm : PoseLandmark) :
  visibility (lms lm) < 0.3 -> extract_feature_vector lms = None.
Proof.
  intros Hlow. unfold extract_feature_vector.
  destruct (mapM _ _) as [pts|] eqn:Hpts; [|reflexivity].
  exfalso. apply mk_is_Some, mapM_is_Some_1 in Hpts. rename Hpts into Hsome. rewrite Forall_forall in Hsome.
  destruct (Hsome lm) as [p Hp].
  - apply list_elem_of_In. destruct lm; cbn; tauto.
  - cbn in Hp. unfold get_visible in Hp.
    destruct (Rlt_dec (visibility (lms lm)) 0.3); [discriminate | lra].
Qed.

Lemma visible_or_not (lms : landmarks) :
  (exists lm, visibility (lms lm) < 0.3) \/ (forall lm, ~ visibility (lms lm) < 0.3).
Proof.
  destruct (Rlt_dec (visibility (lms LEFT_SHOULDER)) 0.3); [left; eauto|].
  destruct (Rlt_dec (visibility (lms RIGHT_SHOULDER)) 0.3); [left; eauto|].
  destruct (Rlt_dec (visibility (lms LEFT_HIP)) 0.3); [left; eauto|].
  destruct (Rlt_dec (visibility (lms RIGHT_HIP)) 0.3); [left; eauto|].
  destruct (Rlt_dec (visibility (lms LEFT_KNEE)) 0.3); [left; eauto|].
  destruct (Rlt_dec (visibility (lms RIGHT_KNEE)) 0.3); [left; eauto|].
  destruct (Rlt_dec (visibility (lms LEFT_ANKLE)) 0.3); [left; eauto|].
  destruct (Rlt_dec (visibility (lms RIGHT_ANKLE)) 0.3); [left; eauto|].
  right. intros lm. destruct lm; assumption.
Qed.

(** A returned vector is the normalised pose, for a positive scale. *)
Lemma extract_some (lms : landmarks) (feat : list R) :
  extract_feature_vector lms = Some feat ->
  (scale_source_of lms = ShoulderHip /\ 1e-3 <= torso_length lms
   /\ feat = normalized lms (torso_length lms))
  \/ (scale_source_of lms = HipWidth /\ 1e-3 <= hip_width lms
      /\ feat = normalized lms (hip_width lms)).
Proof.
  intros Hsome. destruct (visible_or_not lms) as [(lm & Hlow) | Hvis].
  - rewrite (extract_invisible lms lm Hlow) in Hsome. discriminate.
  - rewrite (extract_visible lms Hvis) in Hsome.
    destruct (scale_source_of lms) eqn:Hsrc; [left | right | discriminate];
      injection Hsome as <-;
      (split; [reflexivity|]); (split; [|reflexivity]).
    + now apply scale_source_torso.
    + now apply scale_source_hips.
Qed.

Lemma hypot_opp (u v : R) : hypot (- u) (- v) = hypot u v.
Proof. unfold hypot. f_equal. ring. Qed.

Lemma hypot_div (u v s : R) : 0 < s -> hypot (u / s) (v / s) = hypot u v / s.
Proof.
  intros Hs. unfold Rdiv. rewrite !(Rmult_comm _ (/ s)).
  apply hypot_scale. now apply Rinv_0_lt_compat.
Qed.
End NormalizerEdges.

(** X15: [extract_feature_vector] gives no vector exactly when a joint
    has visibility below 0.3 or both scale candidates are below 1e-3. *)
Theorem extract_feature_vector_none (lms : Features.landmarks) :
  Features.extract_feature_vector lms = None
  <-> (exists lm, (Features.visibility (lms lm) < 0.3)%R)
      \/ scale_source_of lms = NoScale.
Proof.
  split.
  - intros Hnone. destruct (visible_or_not lms) as [Hlow | Hvis]; [left; exact Hlow|].
    right. rewrite (extract_visible lms Hvis) in Hnone.
    destruct (scale_source_of lms); [discriminate | discriminate | reflexivity].
  - intros [(lm & Hlow) | Hsrc]; [exact (extract_invisible lms lm Hlow)|].
    destruct (visible_or_not lms) as [(lm & Hlow) | Hvis];
      [exact (extract_invisible lms lm Hlow)|].
    rewrite (extract_visible lms Hvis), Hsrc. reflexivity.
Qed.

(** X16: a returned feature vector has 16 components and its origin at
    the hip centre: the two hips are opposite points. *)
Theorem extract_feature_vector_hip_centred (lms : Features.landmarks) (feat : list R) :
  Features.extract_feature_vector lms = Some feat ->
  length feat = NUM_FEATURES
  /\ (nth 4 feat 0 + nth 6 feat 0 = 0)%R
  /\ (nth 5 feat 0 + nth 7 feat 0 = 0)%R.
Proof.
  intros Hsome.
  destruct (extract_some lms feat Hsome) as [(_ & Hs & ->) | (_ & Hs & ->)];
    unfold normalized, Features.JOINT_ORDER; cbn [flat_map app nth length];
    (split; [reflexivity|]); split; field; lra.
Qed.

(** X17: a returned feature vector is scaled by the distance it has
    selected: with the shoulder-hip distance as scale the shoulder centre
    is at distance 1 from the origin, with the hip distance as scale the
    hips are at distance 1 from each other. *)
Theorem extract_feature_vector_unit_scale (lms : Features.landmarks) (feat : list R) :
  Features.extract_feature_vector lms = Some feat ->
  (scale_source_of lms = ShoulderHip
   /\ Features.hypot ((nth 0 feat 0 + nth 2 feat 0) / 2)
                     ((nth 1 feat 0 + nth 3 feat 0) / 2) = 1)%R
  \/ (scale_source_of lms = HipWidth
      /\ Features.hypot (nth 4 feat 0 - nth 6 feat 0)
                        (nth 5 feat 0 - nth 7 feat 0) = 1)%R.
Proof.
  intros Hsome.
  destruct (extract_some lms feat Hsome) as [(Hsrc & Hs & ->) | (Hsrc & Hs & ->)];
    [left | right]; (split; [exact Hsrc|]);
    unfold normalized, Features.JOINT_ORDER; cbn [flat_map app nth].
  - set (s := torso_length lms) in *.
    match goal with
    | |- Features.hypot ?u ?v = 1%R =>
        replace u with ((- ((Features.x (lms Features.LEFT_HIP)
                             + Features.x (lms Features.RIGHT_HIP)) / 2
                            - (Features.x (lms Features.LEFT_SHOULDER)
                               + Features.x (lms Features.RIGHT_SHOULDER)) / 2)) / s)%R
          by (field; lra);
        replace v with ((- ((Features.y (lms Features.LEFT_HIP)
                             + Features.y (lms Features.RIGHT_HIP)) / 2
                            - (Features.y (lms Features.LEFT_SHOULDER)
                               + Features.y (lms Features.RIGHT_SHOULDER)) / 2)) / s)%R
          by (field; lra)
    end.
    rewrite hypot_div, hypot_opp by lra.
    change (Features.hypot _ _) with (torso_length lms). fold s. field. lra.
  - set (s := hip_width lms) in *.
    match goal with
    | |- Features.hypot ?u ?v = 1%R =>
        replace u with ((Features.x (lms Features.LEFT_HIP)
                         - Features.x (lms Features.RIGHT_HIP)) / s)%R
          by (field; lra);
        replace v with ((Features.y (lms Features.LEFT_HIP)
                         - Features.y (lms Features.RIGHT_HIP)) / s)%R
          by (field; lra)
    end.
    rewrite hypot_div by lra.
    change (Features.hypot _ _) with (hip_width lms). fold s. field. lra.
Qed.

Lemma extract_feature_vector_hip_centred_witness :
  length [0; 1; 0; 1; 0; 0; 0; 0; 0; 0; 0; 0; 0; 0; 0; 0]%R = NUM_FEATURES
  /\ (nth 4 [0; 1; 0; 1; 0; 0; 0; 0; 0; 0; 0; 0; 0; 0; 0; 0] 0
      + nth 6 [0; 1; 0; 1; 0; 0; 0; 0; 0; 0; 0; 0; 0; 0; 0; 0] 0 = 0)%R
  /\ (nth 5 [0; 1; 0; 1; 0; 0; 0; 0; 0; 0; 0; 0; 0; 0; 0; 0] 0
      + nth 7 [0; 1; 0; 1; 0; 0; 0; 0; 0; 0; 0; 0; 0; 0; 0; 0] 0 = 0)%R.
Proof.
  apply (extract_feature_vector_hip_centred small_pose).
  rewrite extract_visible
    by (intros lm; pose proof (small_pose_visible 1 0 0 lm); lra).
  unfold scale_source_of. rewrite torso_length_small_pose.
  destruct (Rlt_dec 0.002 1e-3); [lra|].
  unfold normalized, small_pose, Features.JOINT_ORDER.
  cbn [flat_map app Features.x Features.y].
  f_equal. repeat (apply (f_equal2 cons); [lra|]). reflexivity.
Defined.

Lemma extract_small_pose :
  Features.extract_feature_vector small_pose
  = Some [0; 1; 0; 1; 0; 0; 0; 0; 0; 0; 0; 0; 0; 0; 0; 0]%R
  /\ scale_source_of small_pose = ShoulderHip.
Proof.
  rewrite extract_visible
    by (intros lm; pose proof (small_pose_visible 1 0 0 lm); lra).
  unfold scale_source_of. rewrite torso_length_small_pose.
  destruct (Rlt_dec 0.002 1e-3); [lra|]. split; [|reflexivity].
  unfold normalized, small_pose, Features.JOINT_ORDER.
  cbn [flat_map app Features.x Features.y].
  f_equal. repeat (apply (f_equal2 cons); [lra|]). reflexivity.
Qed.

Lemma extract_feature_vector_unit_scale_witness :
  (scale_source_of small_pose = ShoulderHip
   /\ Features.hypot
        ((nth 0 [0; 1; 0; 1; 0; 0; 0; 0; 0; 0; 0; 0; 0; 0; 0; 0] 0
          + nth 2 [0; 1; 0; 1; 0; 0; 0; 0; 0; 0; 0; 0; 0; 0; 0; 0] 0) / 2)
        ((nth 1 [0; 1; 0; 1; 0; 0; 0; 0; 0; 0; 0; 0; 0; 0; 0; 0] 0
          + nth 3 [0; 1; 0; 1; 0; 0; 0; 0; 0; 0; 0; 0; 0; 0; 0; 0] 0) / 2) = 1)%R
  \/ (scale_source_of small_pose = HipWidth
      /\ Features.hypot
           (nth 4 [0; 1; 0; 1; 0; 0; 0; 0; 0; 0; 0; 0; 0; 0; 0; 0] 0
            - nth 6 [0; 1; 0; 1; 0; 0; 0; 0; 0; 0; 0; 0; 0; 0; 0; 0] 0)
           (nth 5 [0; 1; 0; 1; 0; 0; 0; 0; 0; 0; 0; 0; 0; 0; 0; 0] 0
            - nth 7 [0; 1; 0; 1; 0; 0; 0; 0; 0; 0; 0; 0; 0; 0; 0; 0] 0) = 1)%R.
Proof.
  apply (extract_feature_vector_unit_scale small_pose).
  exact (proj1 extract_small_pose).
Defined.

(** ** Grouping the corpus by label *)

Section Grouping.
Import Pipeline.

Lemma group_loop_labelled (pairs : list (list R * Z)) :
  Forall (fun xs => snd xs = 0%Z \/ snd xs = 1%Z) pairs ->
  forall bucket0 bucket1 : list (list R),
    foldl (fun features_per_state xs =>
             features_per_state ← features_per_state;
             k ← Numpy.py_index (length features_per_state) (snd xs);
             bucket ← features_per_state !! k;
             Some (<[k := bucket ++ [fst xs]]> features_per_state))
          (Some [bucket0; bucket1]) pairs
    = Some [bucket0 ++ labelled 0 pairs; bucket1 ++ labelled 1 pairs].
Proof.
  induction 1 as [|[feat s] pairs Hs Hpairs IH]; intros bucket0 bucket1.
  - cbn. now rewrite !app_nil_r.
  - cbn [foldl snd fst]. simpl in Hs. destruct Hs as [-> | ->].
    + change (Some [bucket0; bucket1] ≫= _) with (Some [bucket0 ++ [feat]; bucket1]).
      rewrite IH. unfold labelled. cbn [flat_map snd fst Z.eqb].
      now rewrite <- !app_assoc.
    + change (Some [bucket0; bucket1] ≫= _) with (Some [bucket0; bucket1 ++ [feat]]).
      rewrite IH. unfold labelled. cbn [flat_map snd fst Z.eqb Pos.eqb].
      now rewrite <- !app_assoc.
Qed.

Lemma zip_labels_binary (all_features : list (list R)) (all_states : list Z) :
  Forall (fun v => v = 0%Z \/ v = 1%Z) all_states ->
  Forall (fun xs : list R * Z => snd xs = 0%Z \/ snd xs = 1%Z)
         (zip all_features all_states).
Proof.
  intros Hbin. revert all_features.
  induction Hbin as [|s all_states Hs Hbin IH]; intros [|feat all_features];
    cbn; constructor; auto.
Qed.

Lemma group_by_state_binary (all_features : list (list R)) (all_states : list Z) :
  Forall (fun v => v = 0%Z \/ v = 1%Z) all_states ->
  group_by_state all_features all_states
  = Some [labelled 0 (zip all_features all_states);
          labelled 1 (zip all_features all_states)].
Proof.
  intros Hbin. unfold group_by_state.
  exact (group_loop_labelled _ (zip_labels_binary _ _ Hbin) [] []).
Qed.

Lemma labelled_lengths (pairs : list (list R * Z)) :
  Forall (fun xs => snd xs = 0%Z \/ snd xs = 1%Z) pairs ->
  length (labelled 0 pairs) + length (labelled 1 pairs) = length pairs.
Proof.
  induction 1 as [|[feat s] pairs Hs Hpairs IH]; [reflexivity|].
  unfold labelled in *. cbn [flat_map snd fst length].
  rewrite !length_app. simpl in Hs. destruct Hs as [-> | ->]; cbn; lia.
Qed.

Lemma labelled_subset (s : Z) (all_features : list (list R)) (all_states : list Z)
    (feat : list R) :
  In feat (labelled s (zip all_features all_states)) -> In feat all_features.
Proof.
  unfold labelled. intros Hin. apply in_flat_map in Hin as ([f v] & Hin & Hf).
  cbn [fst snd] in Hf. destruct (v =? s)%Z; [|destruct Hf].
  destruct Hf as [<- | []].
  apply list_elem_of_In in Hin. apply elem_of_zip_l in Hin.
  now apply list_elem_of_In.
Qed.
End Grouping.

(** X18: with 0/1 labels the grouping loop of [main] splits the corpus
    in two: bucket 0 holds the feature vectors labelled 0 and bucket 1
    those labelled 1, each in frame order, and with one label for each
    vector no vector is lost. *)
Theorem group_by_state_partition (all_features : list (list R)) (all_states : list Z) :
  Forall (fun v => v = 0%Z \/ v = 1%Z) all_states ->
  length all_features = length all_states ->
  exists bucket0 bucket1 : list (list R),
    Pipeline.group_by_state all_features all_states = Some [bucket0; bucket1]
    /\ bucket0 = labelled 0 (zip all_features all_states)
    /\ bucket1 = labelled 1 (zip all_features all_states)
    /\ length bucket0 + length bucket1 = length all_features.
Proof.
  intros Hbin Hlen. do 2 eexists.
  split; [now apply group_by_state_binary|]. split; [reflexivity|].
  split; [reflexivity|].
  rewrite labelled_lengths by now apply zip_labels_binary.
  rewrite length_zip_with. lia.
Qed.

Lemma group_by_state_partition_witness :
  exists bucket0 bucket1 : list (list R),
    Pipeline.group_by_state [[3]; [5]; [7]]%R [1; 0; 1]%Z = Some [bucket0; bucket1]
    /\ bucket0 = labelled 0 (zip [[3]; [5]; [7]]%R [1; 0; 1]%Z)
    /\ bucket1 = labelled 1 (zip [[3]; [5]; [7]]%R [1; 0; 1]%Z)
    /\ length bucket0 + length bucket1 = length [[3]; [5]; [7]]%R.
Proof.
  apply (group_by_state_partition [[3]; [5]; [7]]%R [1; 0; 1]%Z);
    [repeat (constructor; [auto|]); constructor | reflexivity].
Defined.

(** ** The forward pass and the outcomes of [main] *)

Section ForwardPass.
Import Pipeline.

(** The frame loop from any accumulated corpus. *)
Lemma forward_loop_acc (frames : list (option Features.landmarks))
    (acc : list (list R) * list Z) :
  foldl (fun acc frame =>
           match frame with
           | None => acc
           | Some lms =>
               match Features.extract_feature_vector lms with
               | None => acc
               | Some feat => (fst acc ++ [feat], snd acc ++ [Features.knee_state lms])
               end
           end)
        acc frames
  = (fst acc ++ fst (forward_pass frames), snd acc ++ snd (forward_pass frames)).
Proof.
  unfold forward_pass. revert acc.
  induction frames as [|frame frames IH]; intros acc.
  - cbn. rewrite !app_nil_r. now destruct acc.
  - cbn [foldl]. rewrite IH. symmetry. rewrite IH. symmetry.
    destruct frame as [lms|]; [|reflexivity].
    destruct (Features.extract_feature_vector lms) as [feat|]; [|reflexivity].
    cbn [fst snd app]. now rewrite <- !app_assoc.
Qed.

Lemma forward_pass_frame (frame : option Features.landmarks) :
  forward_pass [frame]
  = match frame with
    | None => ([], [])
    | Some lms =>
        match Features.extract_feature_vector lms with
        | None => ([], [])
        | Some feat => ([feat], [Features.knee_state lms])
        end
    end.
Proof.
  unfold forward_pass. cbn [foldl]. destruct frame as [lms|]; [|reflexivity].
  destruct (Features.extract_feature_vector lms); reflexivity.
Qed.

Lemma forward_pass_concat (frames1 frames2 : list (option Features.landmarks)) :
  forward_pass (frames1 ++ frames2)
  = (fst (forward_pass frames1) ++ fst (forward_pass frames2),
     snd (forward_pass frames1) ++ snd (forward_pass frames2)).
Proof.
  unfold forward_pass at 1. rewrite foldl_app.
  fold (forward_pass frames1). apply forward_loop_acc.
Qed.
End ForwardPass.

(** X19: the frame loop treats the frames one by one and in order: the
    corpus of two clips played one after the other is the corpus of the
    first followed by the corpus of the second. *)
Theorem forward_pass_app (frames1 frames2 : list (option Features.landmarks)) :
  Pipeline.forward_pass (frames1 ++ frames2)
  = (fst (Pipeline.forward_pass frames1) ++ fst (Pipeline.forward_pass frames2),
     snd (Pipeline.forward_pass frames1) ++ snd (Pipeline.forward_pass frames2)).
Proof.
  unfold Pipeline.forward_pass at 1. rewrite foldl_app.
  fold (Pipeline.forward_pass frames1). apply forward_loop_acc.
Qed.

(** X20: the corpus the frame loop builds has one label, 0 or 1, for each
    feature vector, every feature vector has 16 components, and there
    are at most as many of them as frames. *)
Theorem forward_pass_corpus (frames : list (option Features.landmarks)) :
  let corpus := Pipeline.forward_pass frames in
  length (fst corpus) = length (snd corpus)
  /\ length (fst corpus) <= length frames
  /\ Forall (fun v => v = 0%Z \/ v = 1%Z) (snd corpus)
  /\ Forall (fun feat => length feat = NUM_FEATURES) (fst corpus).
Proof.
  intros corpus. subst corpus.
  induction frames as [|frame frames IH] using rev_ind.
  - cbn. repeat split; auto.
  - rewrite forward_pass_concat. cbn [fst snd].
    destruct IH as (Hlen & Hle & Hbin & Hdim).
    rewrite !length_app. cbn [length].
    rewrite forward_pass_frame.
    destruct frame as [lms|];
      [destruct (Features.extract_feature_vector lms) as [feat|] eqn:Hfeat|];
      cbn [fst snd length]; rewrite ?app_nil_r;
      try (repeat split; [lia | lia | assumption | assumption]).
    repeat split; [lia | lia | |].
    + apply Forall_app. split; [exact Hbin|].
      constructor; [apply knee_state_binary | constructor].
    + apply Forall_app. split; [exact Hdim|]. constructor; [|constructor].
      destruct (extract_some lms feat Hfeat) as [(_ & _ & ->) | (_ & _ & ->)];
        reflexivity.
Qed.

Section Outcomes.
Import Pipeline.
Local Open Scope R_scope.

Lemma dumped_app (events1 events2 : list event) :
  dumped (events1 ++ events2) = dumped events1 ++ dumped events2.
Proof. unfold dumped. apply flat_map_app. Qed.

Lemma dumped_decoder_calls {A : Type} (f : A -> list (list R)) (l : list A) :
  dumped (map (fun a => CallViterbi (f a)) l) = [].
Proof. induction l as [|a l IH]; [reflexivity | exact IH]. Qed.

Lemma dumped_detect_reps (all_states : list Z) :
  dumped (trace (detect_reps all_states)) = [].
Proof.
  unfold detect_reps. destruct (length (Segmenter.segment_reps all_states) =? 0)%nat;
    reflexivity.
Qed.

(** On a usable corpus the run ends normally and has written one model,
    built from what the fitters and the decoder return. *)
Lemma usable_corpus_exports (all_features : list (list R)) (all_states : list Z)
    (bucket0 bucket1 : list (list R)) :
  usable_corpus all_features all_states bucket0 bucket1 ->
  exists (events : list event) (means stds trans : list (list R))
         (first_state : Z) (prior rep_loglikes : list R),
    main_after_forward_pass all_features all_states = Run events (inr tt)
    /\ dumped events
       = [build_model (map ln prior) (map (map ln) trans) means stds rep_loglikes]
    /\ HMM.fit_gaussians [bucket0; bucket1] = Some (means, stds)
    /\ HMM.fit_transitions all_states = Some trans
    /\ all_states !! 0%nat = Some first_state
    /\ HMM.fit_prior first_state = Some prior.
Proof.
  intros Husable.
  destruct (usable_corpus_run _ _ _ _ Husable)
    as (means & stds & trans & first_state & prior & events & reps & lls
        & Hgauss & _ & _ & Htrans & Hfirst & Hprior & Hreps & _ & _ & _ & Hrun).
  cbv zeta in Hrun.
  eexists _, means, stds, trans, first_state, prior, lls.
  split; [exact Hrun|]. split; [|auto].
  rewrite !dumped_app, dumped_decoder_calls.
  replace events with (trace (detect_reps all_states)) by now rewrite Hreps.
  rewrite dumped_detect_reps. reflexivity.
Qed.

(** With one 0/1 label for each feature vector, the part of [main] after
    the forward pass either prints one diagnostic and returns, or ends
    normally having written one model. *)
Lemma main_after_forward_pass_outcomes (all_features : list (list R))
    (all_states : list Z) :
  length all_features = length all_states ->
  Forall (fun v => v = 0%Z \/ v = 1%Z) all_states ->
  (exists msg, main_after_forward_pass all_features all_states
               = Run [Printed msg] (inl Returned))
  \/ (exists events model,
        main_after_forward_pass all_features all_states = Run events (inr tt)
        /\ dumped events = [model]).
Proof.
  intros Hlen Hbin.
  destruct (length all_features =? 0)%nat eqn:Hempty.
  { left. exists NoUsableFrames. unfold main_after_forward_pass.
    rewrite Hempty. reflexivity. }
  pose proof (group_by_state_binary all_features all_states Hbin) as Hgroup.
  destruct (labelled 0 (zip all_features all_states)) as [|v0 bucket0] eqn:Hb0.
  { left. exists (StateHasNoFrames 0). unfold main_after_forward_pass.
    rewrite Hgroup, Hempty. reflexivity. }
  destruct (labelled 1 (zip all_features all_states)) as [|v1 bucket1] eqn:Hb1.
  { left. exists (StateHasNoFrames 1). unfold main_after_forward_pass.
    rewrite Hgroup, Hempty. reflexivity. }
  right.
  destruct (usable_corpus_exports all_features all_states (v0 :: bucket0) (v1 :: bucket1))
    as (events & means & stds & trans & first_state & prior & lls & Hrun & Hdump & _).
  { repeat split; [exact Hlen | exact Hbin | exact Hgroup | discriminate | discriminate]. }
  eauto.
Qed.
End Outcomes.

(** X21: whatever the video and the pose estimator give, [main] never
    raises: it either prints one diagnostic, writes nothing and returns,
    or runs to its last statement having written exactly one model. *)
Theorem main_outcomes (opened : bool) (frames : list (option Features.landmarks)) :
  (exists msg,
      Pipeline.main opened frames
      = Pipeline.Run [Pipeline.Printed msg] (inl Pipeline.Returned))
  \/ (exists events model,
        Pipeline.main opened frames = Pipeline.Run events (inr tt)
        /\ dumped events = [model]).
Proof.
  destruct opened.
  - rewrite main_opened.
    destruct (forward_pass_spec frames) as (Hlen & Hbin & _).
    now apply main_after_forward_pass_outcomes.
  - left. exists Pipeline.CannotOpenVideo. reflexivity.
Qed.

(** ** The exported model *)

Section ExportedModel.
Import Pipeline.
Local Open Scope R_scope.

Lemma fit_gaussians_dims (bucket0 bucket1 means stds : list (list R)) :
  HMM.fit_gaussians [bucket0; bucket1] = Some (means, stds) ->
  exists row0 row1 mu0 mu1 sd0 sd1 : list R,
    In row0 bucket0 /\ In row1 bucket1
    /\ means = [mu0; mu1] /\ stds = [sd0; sd1]
    /\ length mu0 = length row0 /\ length sd0 = length row0
    /\ length mu1 = length row1 /\ length sd1 = length row1
    /\ Forall (fun v => 1e-6 <= v) sd0 /\ Forall (fun v => 1e-6 <= v) sd1.
Proof.
  destruct bucket0 as [|row0 bucket0]; [discriminate|].
  destruct bucket1 as [|row1 bucket1]; [discriminate|].
  unfold HMM.fit_gaussians.
  cbn [NUM_STATES seq mapM lookup list_lookup mbind option_bind mret option_ret
       HMM.fit_gaussian map fst snd].
  intros Hfit. injection Hfit as <- <-.
  exists row0, row1. do 4 eexists.
  split; [left; reflexivity|]. split; [left; reflexivity|].
  split; [reflexivity|]. split; [reflexivity|].
  rewrite !length_map, !length_seq. repeat split;
    apply Forall_map, Forall_forall; intros v _; cbv beta;
    destruct (Rlt_dec v 1e-6); lra.
Qed.

Lemma fit_transitions_probabilities (state_seq : list Z) :
  Forall (fun v => v = 0%Z \/ v = 1%Z) state_seq ->
  exists p00 p01 p10 p11 : R,
    HMM.fit_transitions state_seq = Some [[p00; p01]; [p10; p11]]
    /\ p00 + p01 = 1 /\ p10 + p11 = 1
    /\ 0 < p00 < 1 /\ 0 < p01 < 1 /\ 0 < p10 < 1 /\ 0 < p11 < 1.
Proof.
  intros binary. unfold HMM.fit_transitions.
  destruct (count_loop_spec state_seq binary (seq 0 (length state_seq - 1))
              (replicate NUM_STATES (replicate NUM_STATES 1)))
    as (counts & Hloop & Hcounts).
  - apply Forall_seq. intros j Hj. lia.
  - exists 1, 1, 1, 1. split; [reflexivity | lra].
  - rewrite Hloop. cbn [mbind option_bind].
    destruct (normalize_rows_stochastic counts Hcounts)
      as (p00 & p01 & p10 & p11 & -> & Hsum & Hpos).
    exists p00, p01, p10, p11. split; [reflexivity | repeat split; lra].
Qed.

Lemma fit_prior_probabilities (first_state : Z) :
  (first_state = 0 \/ first_state = 1)%Z ->
  exists p0 p1 : R,
    HMM.fit_prior first_state = Some [p0; p1]
    /\ p0 + p1 = 1 /\ 0 < p0 < 1 /\ 0 < p1 < 1.
Proof.
  intros [-> | ->].
  - exists (1 / (1 + (1e-6 + 0))), (1e-6 / (1 + (1e-6 + 0))).
    split; [reflexivity|]. split; [field; lra|]. repeat split; lra.
  - exists (1e-6 / (1e-6 + (1 + 0))), (1 / (1e-6 + (1 + 0))).
    split; [reflexivity|]. split; [field; lra|]. repeat split; lra.
Qed.

Lemma ln_negative (p : R) : 0 < p < 1 -> ln p < 0.
Proof. intros [Hpos Hlt]. rewrite <- ln_1. now apply ln_increasing. Qed.
End ExportedModel.

(** X22: the model written for a usable corpus of 16-component feature
    vectors agrees with its own header: [numStates] is 2 and is the
    length of [logPrior], of [logTrans], of each row of [logTrans] and of
    [emissions]; [numFeatures] is 16 and is the length of each mean and
    each standard-deviation vector, whose components are at least 1e-6;
    [thresholdSigma] is 2. *)
Theorem exported_model_schema (all_features : list (list R)) (all_states : list Z)
    (bucket0 bucket1 : list (list R)) :
  usable_corpus all_features all_states bucket0 bucket1 ->
  Forall (fun feat => length feat = NUM_FEATURES) all_features ->
  exists (events : list Pipeline.event) (model : Pipeline.ModelParameters),
    Pipeline.main_after_forward_pass all_features all_states
    = Pipeline.Run events (inr tt)
    /\ dumped events = [model]
    /\ Pipeline.numStates model = 2
    /\ Pipeline.numFeatures model = 16
    /\ Pipeline.thresholdSigma model = 2%R
    /\ length (Pipeline.logPrior model) = Pipeline.numStates model
    /\ length (Pipeline.logTrans model) = Pipeline.numStates model
    /\ Forall (fun row => length row = Pipeline.numStates model)
              (Pipeline.logTrans model)
    /\ length (Pipeline.emissions model) = Pipeline.numStates model
    /\ Forall (fun e => length (Pipeline.means e) = Pipeline.numFeatures model
                        /\ length (Pipeline.stds e) = Pipeline.numFeatures model
                        /\ Forall (fun v => (1e-6 <= v)%R) (Pipeline.stds e))
              (Pipeline.emissions model).
Proof.
  intros Husable Hdim.
  destruct (usable_corpus_exports _ _ _ _ Husable)
    as (events & means & stds & trans & first_state & prior & lls
        & Hrun & Hdump & Hgauss & Htrans & Hfirst & Hprior).
  destruct Husable as (Hlen & Hbin & Hgroup & _).
  rewrite (group_by_state_binary _ _ Hbin) in Hgroup.
  injection Hgroup as <- <-.
  destruct (fit_gaussians_dims _ _ _ _ Hgauss)
    as (row0 & row1 & mu0 & mu1 & sd0 & sd1 & Hin0 & Hin1 & -> & ->
        & Hmu0 & Hsd0 & Hmu1 & Hsd1 & Hfloor0 & Hfloor1).
  apply labelled_subset in Hin0, Hin1.
  rewrite Forall_forall in Hdim.
  apply list_elem_of_In, Hdim in Hin0. apply list_elem_of_In, Hdim in Hin1.
  destruct (fit_transitions_returns all_states Hbin) as (p00 & p01 & p10 & p11 & Htr).
  rewrite Htr in Htrans. injection Htrans as <-.
  destruct (fit_prior_binary first_state (Forall_lookup_1 _ _ _ _ Hbin Hfirst))
    as (p0 & p1 & Hpr).
  rewrite Hpr in Hprior. injection Hprior as <-.
  eexists _, _. split; [exact Hrun|]. split; [exact Hdump|].
  cbn [Pipeline.build_model Pipeline.numStates Pipeline.numFeatures
       Pipeline.thresholdSigma Pipeline.logPrior Pipeline.logTrans
       Pipeline.emissions NUM_STATES NUM_FEATURES map seq nth length].
  repeat (split; [reflexivity|]).
  split; [repeat constructor|]. split; [reflexivity|].
  repeat constructor; cbn [Pipeline.means Pipeline.stds]; congruence || assumption.
Qed.

Lemma exported_model_schema_witness :
  exists (events : list Pipeline.event) (model : Pipeline.ModelParameters),
    Pipeline.main_after_forward_pass [replicate 16 0%R; replicate 16 1%R] [0; 1]%Z
    = Pipeline.Run events (inr tt)
    /\ dumped events = [model]
    /\ Pipeline.numStates model = 2
    /\ Pipeline.numFeatures model = 16
    /\ Pipeline.thresholdSigma model = 2%R
    /\ length (Pipeline.logPrior model) = Pipeline.numStates model
    /\ length (Pipeline.logTrans model) = Pipeline.numStates model
    /\ Forall (fun row => length row = Pipeline.numStates model)
              (Pipeline.logTrans model)
    /\ length (Pipeline.emissions model) = Pipeline.numStates model
    /\ Forall (fun e => length (Pipeline.means e) = Pipeline.numFeatures model
                        /\ length (Pipeline.stds e) = Pipeline.numFeatures model
                        /\ Forall (fun v => (1e-6 <= v)%R) (Pipeline.stds e))
              (Pipeline.emissions model).
Proof.
  apply (exported_model_schema [replicate 16 0%R; replicate 16 1%R] [0; 1]%Z
           [replicate 16 0%R] [replicate 16 1%R]).
  - split; [reflexivity|]. split; [repeat (constructor; [auto|]); constructor|].
    split; [reflexivity|]. split; discriminate.
  - repeat (constructor; [reflexivity|]). constructor.
Defined.

(** X23: the [logPrior] and the rows of [logTrans] of the model written
    for a usable corpus are logarithms of probability distributions:
    every entry is negative, and the exponentials of the two entries of
    [logPrior], and of each row of [logTrans], sum to 1. *)
Theorem exported_log_probabilities (all_features : list (list R)) (all_states : list Z)
    (bucket0 bucket1 : list (list R)) :
  usable_corpus all_features all_states bucket0 bucket1 ->
  exists (events : list Pipeline.event) (model : Pipeline.ModelParameters),
    Pipeline.main_after_forward_pass all_features all_states
    = Pipeline.Run events (inr tt)
    /\ dumped events = [model]
    /\ Forall (fun v => (v < 0)%R) (Pipeline.logPrior model)
    /\ Numpy.sum (map exp (Pipeline.logPrior model)) = 1%R
    /\ Forall (fun row => Forall (fun v => (v < 0)%R) row
                          /\ Numpy.sum (map exp row) = 1%R)
              (Pipeline.logTrans model).
Proof.
  intros Husable.
  destruct (usable_corpus_exports _ _ _ _ Husable)
    as (events & means & stds & trans & first_state & prior & lls
        & Hrun & Hdump & _ & Htrans & Hfirst & Hprior).
  destruct Husable as (_ & Hbin & _).
  destruct (fit_transitions_probabilities all_states Hbin)
    as (p00 & p01 & p10 & p11 & Htr & Hs0 & Hs1 & H00 & H01 & H10 & H11).
  rewrite Htr in Htrans. injection Htrans as <-.
  destruct (fit_prior_probabilities first_state (Forall_lookup_1 _ _ _ _ Hbin Hfirst))
    as (p0 & p1 & Hpr & Hs & Hp0 & Hp1).
  rewrite Hpr in Hprior. injection Hprior as <-.
  eexists _, _. split; [exact Hrun|]. split; [exact Hdump|].
  cbn [Pipeline.build_model Pipeline.logPrior Pipeline.logTrans map].
  unfold Numpy.sum. cbn [foldr].
  rewrite !exp_ln by lra.
  assert (Hpair : forall p q : R,
             (0 < p < 1)%R -> (0 < q < 1)%R ->
             Forall (fun v => (v < 0)%R) [ln p; ln q]).
  { intros p q Hp Hq.
    constructor; [now apply ln_negative|].
    constructor; [now apply ln_negative | constructor]. }
  split; [now apply Hpair|]. split; [lra|].
  constructor;
    [split; [now apply Hpair | cbn [map foldr]; rewrite !exp_ln by lra; lra]|].
  constructor;
    [split; [now apply Hpair | cbn [map foldr]; rewrite !exp_ln by lra; lra]
    | constructor].
Qed.

Lemma exported_log_probabilities_witness :
  exists (events : list Pipeline.event) (model : Pipeline.ModelParameters),
    Pipeline.main_after_forward_pass [[3]; [5]]%R [1; 0]%Z
    = Pipeline.Run events (inr tt)
    /\ dumped events = [model]
    /\ Forall (fun v => (v < 0)%R) (Pipeline.logPrior model)
    /\ Numpy.sum (map exp (Pipeline.logPrior model)) = 1%R
    /\ Forall (fun row => Forall (fun v => (v < 0)%R) row
                          /\ Numpy.sum (map exp row) = 1%R)
              (Pipeline.logTrans model).
Proof.
  apply (exported_log_probabilities [[3]; [5]]%R [1; 0]%Z [[5]]%R [[3]]%R).
  split; [reflexivity|]. split; [repeat (constructor; [auto|]); constructor|].
  split; [reflexivity|]. split; discriminate.
Defined.

(** X24: each repetition found is decoded on the frames from [start] to
    [end], both included: the slice [all_features[start:end+1]] that
    [main] takes has [end - start + 1] frames, at least 3. *)
Theorem rep_slices_inclusive (all_features : list (list R)) (all_states : list Z) :
  length all_features = length all_states ->
  Forall (fun rep =>
            length (Numpy.slice all_features (fst rep) (snd rep + 1))
            = snd rep - fst rep + 1
            /\ 3 <= length (Numpy.slice all_features (fst rep) (snd rep + 1)))
         (Segmenter.segment_reps all_states).
Proof.
  intros Hlen.
  pose proof (segment_loop_cycles all_states (S (length all_states)) 0 []
                (Forall_nil_2 _)) as Hcyc.
  change (fst (Segmenter.segment_loop all_states (S (length all_states)) 0 []))
    with (Segmenter.segment_reps all_states) in Hcyc.
  eapply Forall_impl; [exact Hcyc|].
  intros rep (m & Hsm & Hme & Hen & _).
  unfold Numpy.slice. rewrite length_take, length_drop. lia.
Qed.

Lemma rep_slices_inclusive_witness :
  Forall (fun rep =>
            length (Numpy.slice [[0]; [1]; [0]; [1]; [0]]%R (fst rep) (snd rep + 1))
            = snd rep - fst rep + 1
            /\ 3 <= length (Numpy.slice [[0]; [1]; [0]; [1]; [0]]%R
                              (fst rep) (snd rep + 1)))
         (Segmenter.segment_reps [0; 1; 0; 1; 0]%Z).
Proof.
  apply (rep_slices_inclusive [[0]; [1]; [0]; [1]; [0]]%R [0; 1; 0; 1; 0]%Z).
  reflexivity.
Defined.

(** ** Viterbi decoder: the path and its log-likelihood *)

Section ArgmaxFacts.
Local Open Scope R_scope.

(** [argmax_from] continues a scan of [pre ++ a] that has reached [a]
    with the index and value of a maximum of [pre]. *)
Lemma argmax_from_spec (a pre : list R) (best_i : nat) :
  (best_i < length pre)%nat ->
  (forall j, (j < length pre)%nat -> nth j pre 0 <= nth best_i pre 0) ->
  let r := Numpy.argmax_from best_i (nth best_i pre 0) (length pre) a in
  (r < length (pre ++ a))%nat
  /\ forall j, (j < length (pre ++ a))%nat -> nth j (pre ++ a) 0 <= nth r (pre ++ a) 0.
Proof.
  revert pre best_i. induction a as [|v a IH]; intros pre best_i Hi Hmax; cbn zeta.
  - rewrite app_nil_r. cbn. auto.
  - cbn [Numpy.argmax_from].
    assert (Hlen : length (pre ++ [v]) = S (length pre))
      by (rewrite length_app; cbn; lia).
    assert (Happ : (pre ++ [v]) ++ a = pre ++ v :: a) by now rewrite <- app_assoc.
    destruct (Rlt_dec (nth best_i pre 0) v) as [Hlt | Hge].
    + pose proof (IH (pre ++ [v]) (length pre)) as IH'. cbn zeta in IH'.
      rewrite nth_middle, Hlen, Happ in IH'. apply IH'; [lia|].
      intros j Hj.
      destruct (Nat.eq_dec j (length pre)) as [-> | Hne];
        [rewrite nth_middle; lra|].
      rewrite app_nth1 by lia. specialize (Hmax j ltac:(lia)). lra.
    + pose proof (IH (pre ++ [v]) best_i) as IH'. cbn zeta in IH'.
      rewrite (app_nth1 pre [v] 0 Hi), Hlen, Happ in IH'. apply IH'; [lia|].
      intros j Hj.
      destruct (Nat.eq_dec j (length pre)) as [-> | Hne];
        [rewrite nth_middle; lra|].
      rewrite app_nth1 by lia. apply Hmax. lia.
Qed.

(** [argmax] returns the index of a maximum. *)
Lemma argmax_spec (a : list R) (i : nat) :
  Numpy.argmax a = Some i ->
  (i < length a)%nat /\ forall j, (j < length a)%nat -> nth j a 0 <= nth i a 0.
Proof.
  destruct a as [|v a]; [discriminate|]. cbn [Numpy.argmax]. intros [= <-].
  pose proof (argmax_from_spec a [v] 0) as Hspec. cbn [length nth app] in Hspec.
  apply Hspec; [lia|]. intros j Hj. assert (j = 0%nat) as -> by lia. cbn. lra.
Qed.
End ArgmaxFacts.

Section PathScores.
Local Open Scope R_scope.
Variable log_prior : list R.
Variable log_trans : list (list R).
Variable emit : nat -> nat -> R.

Lemma last_cons (r d : nat) (rest : list nat) :
  List.last (r :: rest) d = List.last rest r.
Proof.
  revert r d. induction rest as [|r' rest IH]; intros r d; [reflexivity|].
  change (List.last (r :: r' :: rest) d) with (List.last (r' :: rest) d).
  now rewrite !IH.
Qed.

Lemma walk_score_snoc (t prev s : nat) (rest : list nat) :
  walk_score log_trans emit t prev (rest ++ [s])
  = walk_score log_trans emit t prev rest
    + nth s (nth (List.last rest prev) log_trans []) 0
    + emit (t + length rest)%nat s.
Proof.
  revert t prev. induction rest as [|r rest IH]; intros t prev.
  - cbn. rewrite Nat.add_0_r. ring.
  - cbn [app walk_score length]. rewrite IH, last_cons.
    replace (S t + length rest)%nat with (t + S (length rest))%nat by lia. ring.
Qed.

Lemma path_score_snoc (p : list nat) (s : nat) :
  p <> [] ->
  path_score log_prior log_trans emit (p ++ [s])
  = path_score log_prior log_trans emit p
    + nth s (nth (List.last p 0%nat) log_trans []) 0
    + emit (length p) s.
Proof.
  destruct p as [|s0 rest]; [congruence|]. intros _.
  cbn [app path_score length]. rewrite walk_score_snoc, last_cons.
  cbn [Nat.add]. ring.
Qed.

Lemma backtrack_length (rows : list (list nat)) (s : nat) :
  length (HMM.backtrack rows s) = S (length rows).
Proof.
  revert s. induction rows as [|row rows IH]; intros s; [reflexivity|].
  cbn. now rewrite IH.
Qed.

Lemma route_snoc (back : list (list nat)) (row : list nat) (s : nat) :
  route (back ++ [row]) s = route back (nth s row 0%nat) ++ [s].
Proof. unfold route. rewrite rev_unit. reflexivity. Qed.

Lemma route_length (back : list (list nat)) (s : nat) :
  length (route back s) = S (length back).
Proof. unfold route. now rewrite length_rev, backtrack_length, length_rev. Qed.

Lemma route_nonempty (back : list (list nat)) (s : nat) : route back s <> [].
Proof.
  intros Hnil. apply (f_equal length) in Hnil. rewrite route_length in Hnil.
  discriminate.
Qed.

Lemma route_last (back : list (list nat)) (s : nat) :
  List.last (route back s) 0%nat = s.
Proof.
  unfold route. destruct (rev back) as [|row rows]; [reflexivity|].
  cbn [HMM.backtrack rev]. apply last_last.
Qed.

Lemma route_states (n : nat) (back : list (list nat)) (s : nat) :
  (s < n)%nat ->
  Forall (fun row => Forall (fun s' => (s' < n)%nat) row) back ->
  Forall (fun s' => (s' < n)%nat) (route back s).
Proof.
  intros Hs Hback. revert s Hs.
  induction back as [|row back IH] using rev_ind; intros s Hs.
  - repeat constructor. exact Hs.
  - apply Forall_app in Hback as [Hback Hrow].
    apply Forall_cons in Hrow as [Hrow _].
    rewrite route_snoc. apply Forall_app. split; [|repeat constructor; exact Hs].
    apply IH; [exact Hback|]. destruct (Nat.lt_ge_cases s (length row)) as [Hin | Hout].
    + rewrite Forall_forall in Hrow. apply Hrow, list_elem_of_In, nth_In. exact Hin.
    + rewrite nth_overflow by exact Hout. lia.
Qed.

Lemma nth_zip_with_plus (a b : list R) (j : nat) :
  (j < length a)%nat -> (j < length b)%nat ->
  nth j (zip_with Rplus a b) 0 = nth j a 0 + nth j b 0.
Proof.
  revert b j. induction a as [|x a IH]; intros [|y b] [|j] Ha Hb;
    cbn in *; try lia; [reflexivity|]. apply IH; lia.
Qed.
End PathScores.

Lemma nth_column (log_trans : list (list R)) (j s : nat) :
  nth j (Numpy.column log_trans s) 0%R = nth s (nth j log_trans []) 0%R.
Proof.
  unfold Numpy.column. revert j.
  induction log_trans as [|row rows IH]; intros j.
  - cbn. destruct j, s; reflexivity.
  - destruct j as [|j]; cbn; [reflexivity | apply IH].
Qed.


Section ViterbiTable.
Local Open Scope R_scope.
Variable log_prior : list R.
Variable log_trans : list (list R).
Variable emit : nat -> nat -> R.
Local Abbreviation S_ := (length log_prior).

(** The cell that one pass of the recursion computes for state [s]. *)
Lemma viterbi_step_cell (dp : list R) (t : nat) (cells : list (R * nat)) (s : nat) :
  mapM (fun s =>
          let candidates := zip_with Rplus dp (Numpy.column log_trans s) in
          best_prev ← Numpy.argmax candidates;
          Some (nth best_prev candidates 0 + emit t s, best_prev))
       (seq 0 S_) = Some cells ->
  (s < S_)%nat ->
  exists best : nat,
    Numpy.argmax (zip_with Rplus dp (Numpy.column log_trans s)) = Some best
    /\ nth s (map fst cells) 0
       = nth best (zip_with Rplus dp (Numpy.column log_trans s)) 0 + emit t s
    /\ nth s (map snd cells) 0%nat = best.
Proof.
  intros Hcells Hs. apply mapM_Some_1 in Hcells.
  destruct (Forall2_lookup_l _ _ _ s s Hcells) as (cell & Hcell & Hf).
  { now apply lookup_seq_lt. }
  cbv zeta in Hf.
  destruct (Numpy.argmax (zip_with Rplus dp (Numpy.column log_trans s)))
    as [best|]; [|discriminate].
  cbn [mbind option_bind] in Hf. injection Hf as <-.
  exists best. split; [reflexivity|].
  change 0 with (fst (0, 0%nat)) at 1. change 0%nat with (snd (0, 0%nat)) at 2.
  rewrite !map_nth, (nth_lookup_Some _ _ _ _ Hcell). split; reflexivity.
Qed.

Lemma viterbi_step_table (dp dp' : list R) (back back' : list (list nat)) :
  viterbi_table log_prior log_trans emit dp back ->
  HMM.viterbi_step S_ log_trans emit (dp, back) (S (length back)) = Some (dp', back') ->
  viterbi_table log_prior log_trans emit dp' back'
  /\ length back' = S (length back).
Proof.
  intros (Hdp & Hback & Htable). unfold HMM.viterbi_step. cbn [fst snd].
  destruct (mapM _ (seq 0 S_)) as [cells|] eqn:Hcells; [|discriminate].
  cbn [mbind option_bind]. intros [= <- <-].
  assert (Hcand : forall s,
             length (zip_with Rplus dp (Numpy.column log_trans s))
             = (S_ `min` length log_trans)%nat).
  { intros s. unfold Numpy.column. now rewrite length_zip_with, length_map, Hdp. }
  assert (Hcell : forall s, (s < S_)%nat ->
             exists best : nat,
               (best < S_)%nat /\ (best < length log_trans)%nat
               /\ (forall j, (j < S_)%nat -> (j < length log_trans)%nat ->
                     nth j dp 0 + nth s (nth j log_trans []) 0
                     <= nth best dp 0 + nth s (nth best log_trans []) 0)
               /\ nth s (map fst cells) 0
                  = nth best dp 0 + nth s (nth best log_trans []) 0
                    + emit (S (length back)) s
               /\ nth s (map snd cells) 0%nat = best).
  { intros s Hs.
    destruct (viterbi_step_cell dp (S (length back)) cells s Hcells Hs)
      as (best & Hargmax & Hval & Hptr).
    apply argmax_spec in Hargmax as [Hbest Hmax]. rewrite Hcand in Hbest, Hmax.
    assert (Hnth : forall j, (j < S_)%nat -> (j < length log_trans)%nat ->
               nth j (zip_with Rplus dp (Numpy.column log_trans s)) 0
               = nth j dp 0 + nth s (nth j log_trans []) 0).
    { intros j Hj Hjt. rewrite nth_zip_with_plus, nth_column; [reflexivity | lia|].
      unfold Numpy.column. rewrite length_map. exact Hjt. }
    exists best. split; [lia|]. split; [lia|]. split.
    - intros j Hj Hjt. rewrite <- !Hnth by lia. apply Hmax. lia.
    - rewrite Hval, Hnth by lia. auto. }
  split; [|rewrite length_app; cbn; lia]. split; [|split].
  - apply mapM_Some_1, Forall2_length in Hcells.
    now rewrite length_map, <- Hcells, length_seq.
  - apply Forall_app. split; [exact Hback|]. constructor; [|constructor].
    apply Forall_forall. intros b Hb. apply list_elem_of_In, (In_nth _ _ 0%nat) in Hb.
    destruct Hb as (s & Hs & <-). rewrite length_map in Hs.
    apply mapM_Some_1, Forall2_length in Hcells. rewrite length_seq in Hcells.
    destruct (Hcell s ltac:(lia)) as (best & Hbest & _ & _ & _ & ->). exact Hbest.
  - intros s Hs.
    destruct (Hcell s Hs) as (best & Hbest & Hbest' & Hmax & Hval & Hptr).
    destruct (Htable best Hbest) as (Hscore & Hopt).
    rewrite route_snoc, Hptr, path_score_snoc by apply route_nonempty.
    rewrite route_last, route_length, <- Hscore. split; [exact Hval|].
    intros Hrows q Hq Hstates. rewrite length_app in Hq. cbn [length] in Hq.
    destruct q as [|j q'] using rev_ind; [cbn in Hq; lia|]. clear IHq'.
    rewrite length_app in Hq. cbn [length] in Hq.
    apply Forall_app in Hstates as [Hq' Hj]. apply Forall_cons in Hj as [Hj _].
    rewrite path_score_snoc by (intros Hnil; now apply app_eq_nil in Hnil as [_ ?]).
    rewrite last_last, length_app. cbn [length].
    destruct (Htable j Hj) as (_ & Hoptj).
    specialize (Hoptj Hrows q' ltac:(lia) Hq').
    specialize (Hmax j Hj ltac:(lia)).
    replace (length q' + 1)%nat with (S (length back)) by lia.
    rewrite Hval. lra.
Qed.

(** The recursion from time [length back + 1] on. *)
Lemma viterbi_recursion_table (m : nat) (dp dp' : list R) (back back' : list (list nat)) :
  viterbi_table log_prior log_trans emit dp back ->
  foldl (fun dp_back t =>
           dp_back ← dp_back; HMM.viterbi_step S_ log_trans emit dp_back t)
        (Some (dp, back)) (seq (S (length back)) m)
  = Some (dp', back') ->
  viterbi_table log_prior log_trans emit dp' back'
  /\ length back' = (length back + m)%nat.
Proof.
  revert dp back. induction m as [|m IH]; intros dp back Htable.
  - cbn. intros [= <- <-]. split; [exact Htable | lia].
  - cbn [seq foldl mbind option_bind].
    destruct (HMM.viterbi_step S_ log_trans emit (dp, back) (S (length back)))
      as [[dp1 back1]|] eqn:Hstep.
    + destruct (viterbi_step_table _ _ _ _ Htable Hstep) as (Htable1 & Hlen1).
      rewrite <- Hlen1. intros Hfold.
      destruct (IH _ _ Htable1 Hfold) as (Hfinal & Hlen). split; [exact Hfinal | lia].
    + intros Hfold. exfalso. clear -Hfold.
      generalize dependent (seq (S (S (length back))) m). intros ts Hfold.
      induction ts as [|t ts IHts]; cbn in Hfold; [discriminate | auto].
Qed.

(** The first row of the table. *)
Lemma viterbi_init_table :
  viterbi_table log_prior log_trans emit
    (zip_with Rplus log_prior (map (emit 0%nat) (seq 0 S_))) [].
Proof.
  assert (Hnth : forall s, (s < S_)%nat ->
             nth s (zip_with Rplus log_prior (map (emit 0%nat) (seq 0 S_))) 0
             = nth s log_prior 0 + emit 0%nat s).
  { intros s Hs. rewrite nth_zip_with_plus by (rewrite ?length_map, ?length_seq; lia).
    f_equal.
    rewrite (nth_indep _ 0 (emit 0%nat 0%nat))
      by (rewrite length_map, length_seq; lia).
    rewrite map_nth, seq_nth by lia. reflexivity. }
  split; [rewrite length_zip_with, length_map, length_seq; lia|].
  split; [constructor|]. intros s Hs. rewrite Hnth by exact Hs.
  split; [cbn; ring|].
  intros _ q Hq _. destruct q; [|discriminate]. cbn. lra.
Qed.
End ViterbiTable.

Section ViterbiResult.
Local Open Scope R_scope.

Lemma walk_score_ext (n : nat) (log_trans : list (list R))
    (emit emit' : nat -> nat -> R) (rest : list nat) (t prev : nat) :
  (forall t s, (s < n)%nat -> emit t s = emit' t s) ->
  Forall (fun s => (s < n)%nat) rest ->
  walk_score log_trans emit t prev rest = walk_score log_trans emit' t prev rest.
Proof.
  intros Hext Hrest. revert t prev.
  induction Hrest as [|s rest Hs Hrest IH]; intros t prev; [reflexivity|].
  cbn [walk_score]. now rewrite IH, Hext.
Qed.

Lemma path_score_ext (n : nat) (log_prior : list R) (log_trans : list (list R))
    (emit emit' : nat -> nat -> R) (path : list nat) :
  (forall t s, (s < n)%nat -> emit t s = emit' t s) ->
  Forall (fun s => (s < n)%nat) path ->
  path_score log_prior log_trans emit path = path_score log_prior log_trans emit' path.
Proof.
  intros Hext Hpath. destruct Hpath as [|s0 rest Hs0 Hrest]; [reflexivity|].
  cbn [path_score]. now rewrite (walk_score_ext n _ emit emit'), Hext.
Qed.

Variable sequence : list (list R).
Variable log_prior : list R.
Variables log_trans means stds : list (list R).

(** What a returned result of [viterbi_loglik] comes from: the table at
    the last time, the state of its maximum and the path read back from
    that state. *)
Lemma viterbi_loglik_unfold (path : list nat) (ll : R) :
  HMM.viterbi_loglik sequence log_prior log_trans means stds = Some (path, ll) ->
  exists (emit : nat -> nat -> R) (dp : list R) (back : list (list nat)) (last : nat),
    (forall t s, (s < length log_prior)%nat ->
                 emit t s = log_emit_at sequence means stds t s)
    /\ viterbi_table log_prior log_trans emit dp back
    /\ S (length back) = length sequence
    /\ Numpy.argmax dp = Some last
    /\ path = route back last
    /\ ll = nth last dp 0.
Proof.
  unfold HMM.viterbi_loglik.
  destruct (length sequence =? 0)%nat eqn:HT; [discriminate|].
  apply Nat.eqb_neq in HT.
  destruct (mapM _ (seq 0 (length log_prior))) as [log_emit|] eqn:Hemit;
    [|discriminate].
  cbn [mbind option_bind].
  set (emit := fun t s : nat => nth t (nth s log_emit []) 0).
  destruct (foldl _ _ (seq 1 (length sequence - 1))) as [[dp back]|] eqn:Hfold;
    [|discriminate].
  cbn [mbind option_bind fst snd].
  destruct (Numpy.argmax dp) as [last|] eqn:Hlast; [|discriminate].
  cbn [mbind option_bind]. intros [= <- <-].
  exists emit, dp, back, last.
  destruct (viterbi_recursion_table log_prior log_trans emit
              (length sequence - 1) _ dp [] back
              (viterbi_init_table log_prior log_trans emit) Hfold)
    as (Htable & Hlen).
  cbn [length Nat.add] in Hlen.
  split; [|split; [exact Htable | split; [lia | auto]]].
  intros t s Hs. unfold emit, log_emit_at. f_equal.
  apply mapM_Some_1 in Hemit.
  destruct (Forall2_lookup_l _ _ _ s s Hemit) as (col & Hcol & Hf).
  { now apply lookup_seq_lt. }
  destruct (means !! s) as [mu|] eqn:Hmu; [|discriminate].
  destruct (stds !! s) as [sd|] eqn:Hsd; [|discriminate].
  cbn [mbind option_bind] in Hf. injection Hf as <-.
  now rewrite (nth_lookup_Some _ _ _ _ Hcol), (nth_lookup_Some _ _ _ _ Hmu),
    (nth_lookup_Some _ _ _ _ Hsd).
Qed.
End ViterbiResult.

(** X25: a path that [viterbi_loglik] returns has one state for each
    frame of the sequence, and each is a state of the model. *)
Theorem viterbi_path_states (sequence : list (list R)) (log_prior : list R)
    (log_trans means stds : list (list R)) (path : list nat) (ll : R) :
  HMM.viterbi_loglik sequence log_prior log_trans means stds = Some (path, ll) ->
  length path = length sequence
  /\ Forall (fun s => s < length log_prior) path.
Proof.
  intros Hdec.
  destruct (viterbi_loglik_unfold _ _ _ _ _ _ _ Hdec)
    as (emit & dp & back & last & _ & (Hdp & Hback & _) & HT & Hlast & -> & _).
  apply argmax_spec in Hlast as [Hlast _]. rewrite Hdp in Hlast.
  split; [now rewrite route_length | now apply route_states].
Qed.

(** X26: the log-likelihood that [viterbi_loglik] returns is the joint
    log-likelihood of the path it returns: the log-prior of the first
    state, plus the log-transition between each two consecutive states,
    plus the log-emission of each frame in its state. *)
Theorem viterbi_loglik_of_path (sequence : list (list R)) (log_prior : list R)
    (log_trans means stds : list (list R)) (path : list nat) (ll : R) :
  HMM.viterbi_loglik sequence log_prior log_trans means stds = Some (path, ll) ->
  ll = path_score log_prior log_trans (log_emit_at sequence means stds) path.
Proof.
  intros Hdec.
  destruct (viterbi_loglik_unfold _ _ _ _ _ _ _ Hdec)
    as (emit & dp & back & last & Hemit & (Hdp & Hback & Htable) & HT & Hlast & -> & ->).
  apply argmax_spec in Hlast as [Hlast _]. rewrite Hdp in Hlast.
  destruct (Htable last Hlast) as (-> & _).
  apply (path_score_ext (length log_prior)); [exact Hemit|].
  now apply route_states.
Qed.

(** X27: when [log_trans] has a row for every state, no path of states
    of the model, one state for each frame, has a larger joint
    log-likelihood than the one [viterbi_loglik] returns. *)
Theorem viterbi_loglik_maximal (sequence : list (list R)) (log_prior : list R)
    (log_trans means stds : list (list R)) (path : list nat) (ll : R) :
  HMM.viterbi_loglik sequence log_prior log_trans means stds = Some (path, ll) ->
  length log_prior <= length log_trans ->
  forall other : list nat,
    length other = length sequence ->
    Forall (fun s => s < length log_prior) other ->
    (path_score log_prior log_trans (log_emit_at sequence means stds) other <= ll)%R.
Proof.
  intros Hdec Hrows other Hlen Hstates.
  destruct (viterbi_loglik_unfold _ _ _ _ _ _ _ Hdec)
    as (emit & dp & back & last & Hemit & (Hdp & Hback & Htable) & HT & Hlast & _ & ->).
  apply argmax_spec in Hlast as [Hlast Hmax]. rewrite Hdp in Hlast, Hmax.
  rewrite <- (path_score_ext (length log_prior) _ _ emit) by assumption.
  destruct other as [|s other'] using rev_ind; [cbn in Hlen; lia|]. clear IHother'.
  rewrite length_app in Hlen. cbn [length] in Hlen.
  apply Forall_app in Hstates as [Hother' Hs]. apply Forall_cons in Hs as [Hs _].
  destruct (Htable s Hs) as (_ & Hopt).
  specialize (Hopt Hrows other' ltac:(lia) Hother').
  specialize (Hmax s Hs). lra.
Qed.

Lemma viterbi_path_states_witness :
  exists (path : list nat) (ll : R),
    HMM.viterbi_loglik [[0]; [1]]%R [-1; -2]%R [[-1; -2]; [-2; -1]]%R
      [[0]; [1]]%R [[1]; [1]]%R = Some (path, ll)
    /\ length path = length [[0]; [1]]%R
    /\ Forall (fun s => s < length [-1; -2]%R) path.
Proof.
  destruct (viterbi_loglik_returns [[0]; [1]]%R [-1; -2]%R [[-1; -2]; [-2; -1]]%R
              [[0]; [1]]%R [[1]; [1]]%R) as [[path ll] Hdec];
    [discriminate | simpl; lia | simpl; lia | simpl; lia | discriminate |].
  exists path, ll. split; [exact Hdec|].
  exact (viterbi_path_states _ _ _ _ _ _ _ Hdec).
Defined.

Lemma viterbi_loglik_of_path_witness :
  exists (path : list nat) (ll : R),
    HMM.viterbi_loglik [[0]; [1]]%R [-1; -2]%R [[-1; -2]; [-2; -1]]%R
      [[0]; [1]]%R [[1]; [1]]%R = Some (path, ll)
    /\ ll = path_score [-1; -2]%R [[-1; -2]; [-2; -1]]%R
              (log_emit_at [[0]; [1]]%R [[0]; [1]]%R [[1]; [1]]%R) path.
Proof.
  destruct (viterbi_loglik_returns [[0]; [1]]%R [-1; -2]%R [[-1; -2]; [-2; -1]]%R
              [[0]; [1]]%R [[1]; [1]]%R) as [[path ll] Hdec];
    [discriminate | simpl; lia | simpl; lia | simpl; lia | discriminate |].
  exists path, ll. split; [exact Hdec|].
  exact (viterbi_loglik_of_path _ _ _ _ _ _ _ Hdec).
Defined.

Lemma viterbi_loglik_maximal_witness :
  exists (path : list nat) (ll : R),
    HMM.viterbi_loglik [[0]; [1]]%R [-1; -2]%R [[-1; -2]; [-2; -1]]%R
      [[0]; [1]]%R [[1]; [1]]%R = Some (path, ll)
    /\ (path_score [-1; -2]%R [[-1; -2]; [-2; -1]]%R
          (log_emit_at [[0]; [1]]%R [[0]; [1]]%R [[1]; [1]]%R) [1%nat; 0%nat]
        <= ll)%R.
Proof.
  destruct (viterbi_loglik_returns [[0]; [1]]%R [-1; -2]%R [[-1; -2]; [-2; -1]]%R
              [[0]; [1]]%R [[1]; [1]]%R) as [[path ll] Hdec];
    [discriminate | simpl; lia | simpl; lia | simpl; lia | discriminate |].
  exists path, ll. split; [exact Hdec|].
  apply (viterbi_loglik_maximal _ _ _ _ _ _ _ Hdec);
    [simpl; lia | reflexivity | repeat (constructor; [simpl; lia|]); constructor].
Defined.

(** ** Translating the subject *)

Section Translation.
Local Open Scope R_scope.

Lemma scale_source_translated (lms : Features.landmarks) (tx ty : R) :
  scale_source_of (transform 1 tx ty lms) = scale_source_of lms.
Proof.
  unfold scale_source_of.
  rewrite torso_length_transform, hip_width_transform by lra.
  now rewrite !Rmult_1_l.
Qed.

Lemma extract_translated (lms : Features.landmarks) (tx ty : R) :
  Features.extract_feature_vector (transform 1 tx ty lms)
  = Features.extract_feature_vector lms.
Proof.
  destruct (visible_or_not lms) as [(lm & Hlow) | Hvis].
  - rewrite (extract_invisible lms lm Hlow).
    apply (extract_invisible _ lm). exact Hlow.
  - rewrite (extract_visible (transform 1 tx ty lms)) by exact Hvis.
    rewrite (extract_visible lms Hvis), scale_source_translated.
    destruct (scale_source_of lms) eqn:Hsrc; [| |reflexivity].
    + apply scale_source_torso in Hsrc.
      now rewrite torso_length_transform, normalized_transform by lra.
    + apply scale_source_hips in Hsrc.
      now rewrite hip_width_transform, normalized_transform by lra.
Qed.

Lemma knee_state_translated (lms : Features.landmarks) (tx ty : R) :
  Features.knee_state (transform 1 tx ty lms) = Features.knee_state lms.
Proof.
  unfold Features.knee_state, Features.knee_state_with. cbv zeta.
  unfold transform. cbn [Features.x Features.y].
  rewrite !angle_translated. reflexivity.
Qed.

Lemma forward_pass_translated (frames : list (option Features.landmarks)) (tx ty : R) :
  Pipeline.forward_pass (map (option_map (transform 1 tx ty)) frames)
  = Pipeline.forward_pass frames.
Proof.
  unfold Pipeline.forward_pass. generalize (([], []) : list (list R) * list Z).
  induction frames as [|frame frames IH]; intros acc; [reflexivity|].
  cbn [map foldl]. rewrite <- IH. f_equal.
  destruct frame as [lms|]; [|reflexivity]. cbn [option_map].
  now rewrite extract_translated, knee_state_translated.
Qed.
End Translation.

(** X28: moving every joint of a pose by the same vector does not change
    what [extract_feature_vector] returns, a vector or none. *)
Theorem extract_feature_vector_translation_invariant (lms : Features.landmarks)
    (tx ty : R) :
  Features.extract_feature_vector (transform 1 tx ty lms)
  = Features.extract_feature_vector lms.
Proof.
  destruct (visible_or_not lms) as [(lm & Hlow) | Hvis].
  - rewrite (extract_invisible lms lm Hlow).
    apply (extract_invisible _ lm). exact Hlow.
  - rewrite (extract_visible (transform 1 tx ty lms)) by exact Hvis.
    rewrite (extract_visible lms Hvis), scale_source_translated.
    destruct (scale_source_of lms) eqn:Hsrc; [| |reflexivity].
    + apply scale_source_torso in Hsrc.
      now rewrite torso_length_transform, normalized_transform by lra.
    + apply scale_source_hips in Hsrc.
      now rewrite hip_width_transform, normalized_transform by lra.
Qed.

(** X29: a run of [main] does not depend on where the subject stands in
    the image: moving every joint of every frame by the same vector
    gives the same corpus, hence the same prints and the same model. *)
Theorem main_translation_invariant (opened : bool)
    (frames : list (option Features.landmarks)) (tx ty : R) :
  Pipeline.forward_pass (map (option_map (transform 1 tx ty)) frames)
  = Pipeline.forward_pass frames
  /\ Pipeline.main opened (map (option_map (transform 1 tx ty)) frames)
     = Pipeline.main opened frames.
Proof.
  split; [apply forward_pass_translated|].
  unfold Pipeline.main. now rewrite forward_pass_translated.
Qed.
